(** * MiniDSP 2x4HD driver (USB Host Shield 2.0): frame encoder and response parsers

    A shallow embedding of [MiniDSP.cpp] and of the state declared in
    [MiniDSP.h].  Bytes are integers in [0, 256) with the wrap-around of
    [uint8_t] written out; a C array is a list indexed from 0, and an access
    outside it (or a read of an indeterminate cell) has no defined result,
    which the embedding renders as [None] in the option monad. *)

From Stdlib Require Import ZArith QArith Lia.
From stdpp Require Import base option list.

Local Open Scope Z_scope.

(** ** Machine integers *)

Definition wrap8 (z : Z) : Z := z mod 256.
Definition wrap16 (z : Z) : Z := z mod 65536.

Definition is_byte (z : Z) : Prop := 0 <= z < 256.

(** ** Memory cells

    [Mem] is a C array of [uint8_t]; a cell holds [None] while its content is
    indeterminate (a local array before it is written). *)

Abbreviation Mem := (list (option Z)) (only parsing).

(** [p[i]] as an rvalue. *)
Definition load (p : Mem) (i : Z) : option Z :=
  if (0 <=? i) then mjoin (p !! Z.to_nat i) else None.

(** [p[i] = v]. *)
Definition store (p : Mem) (i : Z) (v : Z) : option Mem :=
  if (0 <=? i) && (i <? Z.of_nat (length p))
  then Some (<[Z.to_nat i := Some v]> p)
  else None.

(** [memcpy(&dst[off], src, n)]: both ranges have to lie inside their arrays. *)
Definition memcpy (dst : Mem) (off : Z) (src : list Z) (n : Z) : option Mem :=
  if (0 <=? off) && (0 <=? n) && (off + n <=? Z.of_nat (length dst))
     && (n <=? Z.of_nat (length src))
  then Some (list_inserts (Z.to_nat off) (Some <$> take (Z.to_nat n) src) dst)
  else None.

(** [memset(&dst[off], c, n)].  [n] is the [size_t] operand before conversion:
    a negative [n] stands for the huge value it wraps to, which overruns any
    array just as an [n] that is merely too large does. *)
Definition memset (dst : Mem) (off : Z) (c : Z) (n : Z) : option Mem :=
  if (0 <=? off) && (0 <=? n) && (off + n <=? Z.of_nat (length dst))
  then Some (list_inserts (Z.to_nat off) (replicate (Z.to_nat n) (Some c)) dst)
  else None.

(** A fully initialised array, as the transport reads it. *)
Definition contents (p : Mem) : option (list Z) := mapM id p.

(** A received frame as memory. *)
Definition frame_mem (f : list Z) : Mem := Some <$> f.

(** ** Checksum *)

(** The loop of [Checksum]: [remaining] iterations are left, the counter is
    [i] and the [uint16_t] accumulator is [sum].  The counter is a [uint8_t]
    below [data_length <= 255], so [i++] never wraps. *)
Fixpoint Checksum_loop (data : Mem) (remaining : nat) (i : Z) (sum : Z)
  : option Z :=
  match remaining with
  | O => Some sum
  | S k =>
      d ← load data i;
      Checksum_loop data k (i + 1) (wrap16 (sum + d))
  end.

Definition Checksum (data : Mem) (data_length : Z) : option Z :=
  sum ← Checksum_loop data (Z.to_nat data_length) 0 0;
  Some (Z.land sum 0xFF).

(** ** SendCommand

    The result is the list of buffers handed to [pUsb->outTransfer], or
    [None] when the call runs into an access outside [buf]. *)

Definition SendCommand (command : list Z) (command_length : Z)
  : option (list (list Z)) :=
  if command_length >? 63 then Some []
  else
    let buf : Mem := replicate 64 None in
    buf ← store buf 0 (wrap8 (command_length + 1));
    buf ← memcpy buf 1 command command_length;
    let checksumOffset := command_length + 1 in
    c ← Checksum buf (wrap8 (command_length + 1));
    buf ← store buf checksumOffset c;
    buf ← memset buf (checksumOffset + 1) 0xFF (64 - checksumOffset - 1);
    sent ← contents buf;
    Some [sent].

(** The 16-bit running sum of [Checksum] over a list of bytes. *)
Definition sum16 (s : Z) (l : list Z) : Z := foldl (λ s d, wrap16 (s + d)) s l.

(** The buffer [SendCommand] builds for a command that fits, in closed form:
    length byte, command, checksum, padding. *)
Definition encoded (command : list Z) : list Z :=
  let hdr := Z.of_nat (length command) + 1 in
  (hdr :: command)
  ++ Z.land (sum16 0 (hdr :: command)) 0xFF
  :: replicate (62 - length command) 0xFF.

(** ** Commands *)

Definition RequestStatus : option (list (list Z)) :=
  SendCommand [0x05; 0xFF; 0xD9; 0x03] 4.
Definition requestSource : option (list (list Z)) :=
  SendCommand [0x05; 0xFF; 0xD9; 0x01] 4.
Definition requestVolume : option (list (list Z)) :=
  SendCommand [0x05; 0xFF; 0xDA; 0x01] 4.
Definition requestMute : option (list (list Z)) :=
  SendCommand [0x05; 0xFF; 0xDB; 0x01] 4.
Definition RequestOutputLevels : option (list (list Z)) :=
  SendCommand [0x14; 0x00; 0x4a; 0x04] 4.
Definition RequestInputLevels : option (list (list Z)) :=
  SendCommand [0x14; 0x00; 0x44; 0x02] 4.
Definition RequestLevels : option (list (list Z)) :=
  SendCommand [0x14; 0x00; 0x44; 0x0A] 4.

(** [setVolume(uint8_t)] *)
Definition setVolume (volume : Z) : option (list (list Z)) :=
  SendCommand [0x42; volume] 2.

Definition setMute (muteOn : bool) : option (list (list Z)) :=
  SendCommand [0x17; if muteOn then 0x01 else 0x00] 2.

Definition setSource (source : Z) : option (list (list Z)) :=
  if source >? 1 then Some [] else SendCommand [0x34; source] 2.

(** ** Device state and callbacks *)

Definition MINIDSP_VID : Z := 0x2752.
Definition MINIDSP_PID : Z := 0x0011.

(** The identity the transport reports ([HIDUniversal::VID], [::PID]). *)
Record HIDUniversal := { VID : Z; PID : Z }.

(** The callback slots: [true] when a function is attached (the pointer is
    not [nullptr]). *)
Record Callbacks := {
  pFuncOnInit : bool;
  pFuncOnSourceChange : bool;
  pFuncOnVolumeChange : bool;
  pFuncOnMutedChange : bool;
  pFuncOnParse : bool;
  pFuncOnNewOutputLevels : bool;
  pFuncOnNewInputLevels : bool
}.

(** The state members of [class MiniDSP].  A [float] is kept as the 32-bit
    word [memcpy] puts into it. *)
Record MiniDSP := {
  preset : Z;
  source : Z;
  volume : Z;
  muted : Z;
  callbackAlways : bool;
  outputLevels : list Z;
  inputLevels : list Z
}.

(** The member initialisers of the class. *)
Definition MiniDSP_new : MiniDSP := {|
  preset := 4;
  source := 3;
  volume := 0x100;
  muted := 2;
  callbackAlways := true;
  outputLevels := [0; 0; 0; 0];
  inputLevels := [0; 0]
|}.

Definition set_preset (v : Z) (d : MiniDSP) : MiniDSP :=
  {| preset := v; source := source d; volume := volume d; muted := muted d;
     callbackAlways := callbackAlways d;
     outputLevels := outputLevels d; inputLevels := inputLevels d |}.
Definition set_source (v : Z) (d : MiniDSP) : MiniDSP :=
  {| preset := preset d; source := v; volume := volume d; muted := muted d;
     callbackAlways := callbackAlways d;
     outputLevels := outputLevels d; inputLevels := inputLevels d |}.
Definition set_volume (v : Z) (d : MiniDSP) : MiniDSP :=
  {| preset := preset d; source := source d; volume := v; muted := muted d;
     callbackAlways := callbackAlways d;
     outputLevels := outputLevels d; inputLevels := inputLevels d |}.
Definition set_muted (v : Z) (d : MiniDSP) : MiniDSP :=
  {| preset := preset d; source := source d; volume := volume d; muted := v;
     callbackAlways := callbackAlways d;
     outputLevels := outputLevels d; inputLevels := inputLevels d |}.
Definition set_callbackAlways (b : bool) (d : MiniDSP) : MiniDSP :=
  {| preset := preset d; source := source d; volume := volume d;
     muted := muted d; callbackAlways := b;
     outputLevels := outputLevels d; inputLevels := inputLevels d |}.
Definition set_outputLevel (k : nat) (v : Z) (d : MiniDSP) : MiniDSP :=
  {| preset := preset d; source := source d; volume := volume d;
     muted := muted d; callbackAlways := callbackAlways d;
     outputLevels := <[k := v]> (outputLevels d);
     inputLevels := inputLevels d |}.
Definition set_inputLevel (k : nat) (v : Z) (d : MiniDSP) : MiniDSP :=
  {| preset := preset d; source := source d; volume := volume d;
     muted := muted d; callbackAlways := callbackAlways d;
     outputLevels := outputLevels d;
     inputLevels := <[k := v]> (inputLevels d) |}.

Definition callbackOnChange (d : MiniDSP) : MiniDSP := set_callbackAlways false d.
Definition callbackOnResponse (d : MiniDSP) : MiniDSP := set_callbackAlways true d.

(** A call through one of the callback pointers, with its argument. *)
Inductive Event :=
| OnParse (buf : list Z)
| OnSourceChange (v : Z)
| OnVolumeChange (v : Z)
| OnMutedChange (b : bool)
| OnNewOutputLevels (levels : list Z)
| OnNewInputLevels (levels : list Z).

(** What a parser leaves behind: the new state and the calls it made, in
    order. *)
Abbreviation Outcome := (MiniDSP * list Event)%type (only parsing).

(** ** The field updates shared by the direct-set and byte-read parsers *)

(** [volumeChanged = static_cast<int>(data) != volume; volume = data;] and the
    guarded call.  The callback takes a [uint8_t]. *)
Definition updateVolume (cb : Callbacks) (d : MiniDSP) (data : Z) : Outcome :=
  let volumeChanged := negb (data =? volume d) in
  let d := set_volume data d in
  (d, if (callbackAlways d || volumeChanged) && pFuncOnVolumeChange cb
      then [OnVolumeChange (wrap8 (volume d))] else []).

(** The callback takes a [bool]. *)
Definition updateMuted (cb : Callbacks) (d : MiniDSP) (data : Z) : Outcome :=
  let mutedChanged := negb (data =? muted d) in
  let d := set_muted data d in
  (d, if (callbackAlways d || mutedChanged) && pFuncOnMutedChange cb
      then [OnMutedChange (negb (muted d =? 0))] else []).

Definition updateSource (cb : Callbacks) (d : MiniDSP) (data : Z) : Outcome :=
  let sourceChanged := negb (data =? source d) in
  let d := set_source data d in
  (d, if (callbackAlways d || sourceChanged) && pFuncOnSourceChange cb
      then [OnSourceChange (source d)] else []).

(** ** parseDirectSetResponse *)

Definition parseDirectSetResponse (cb : Callbacks) (d : MiniDSP) (buf : Mem)
  : option Outcome :=
  data ← load buf 2;
  opcode ← load buf 1;
  Some (if opcode =? 0x42 then updateVolume cb d data
        else if opcode =? 0x17 then updateMuted cb d data
        else if opcode =? 0x34 then updateSource cb d data
        else (d, [])).

(** ** parseByteReadResponse *)

(** The [switch (addr)] of the loop body. *)
Definition byteReadCase (cb : Callbacks) (d : MiniDSP) (addr data : Z)
  : Outcome :=
  if addr =? 0xD8 then (set_preset data d, [])
  else if (addr =? 0xA9) || (addr =? 0xD9) then updateSource cb d data
  else if addr =? 0xDA then updateVolume cb d data
  else if addr =? 0xDB then updateMuted cb d data
  else (d, []).

(** The loop: [remaining] iterations are left and the counter is [i]
    ([i < dataLength <= 255], so [i++] does not wrap; [i + 4] is an [int]). *)
Fixpoint byteReadLoop (cb : Callbacks) (buf : Mem) (baseAddr : Z)
    (remaining : nat) (i : Z) (d : MiniDSP) : option Outcome :=
  match remaining with
  | O => Some (d, [])
  | S k =>
      let addr := wrap8 (baseAddr + i) in
      data ← load buf (i + 4);
      let '(d1, ev1) := byteReadCase cb d addr data in
      '(d2, ev2) ← byteReadLoop cb buf baseAddr k (i + 1) d1;
      Some (d2, ev1 ++ ev2)
  end.

Definition parseByteReadResponse (cb : Callbacks) (d : MiniDSP) (buf : Mem)
  : option Outcome :=
  b0 ← load buf 0;
  let dataLength := wrap8 (b0 - 4) in
  baseAddr ← load buf 3;
  byteReadLoop cb buf baseAddr (Z.to_nat dataLength) 0 d.

(** ** parseFloatReadResponse *)

(** [memcpy(&floater, buf + off, 4)] on a little-endian target. *)
Definition getFloatLE (buf : Mem) (off : Z) : option Z :=
  b0 ← load buf off;
  b1 ← load buf (off + 1);
  b2 ← load buf (off + 2);
  b3 ← load buf (off + 3);
  Some (Z.lor b0 (Z.lor (Z.shiftl b1 8) (Z.lor (Z.shiftl b2 16) (Z.shiftl b3 24)))).

(** The locals [newOutputLevels] and [newInputLevels] travel with the state. *)
Record FloatLoop := {
  dsp : MiniDSP;
  newOutputLevels : bool;
  newInputLevels : bool
}.

(** The [switch (addr)] of the loop body. *)
Definition floatReadCase (s : FloatLoop) (addr data : Z) : FloatLoop :=
  let d := dsp s in
  if addr =? 0x44 then
    {| dsp := set_inputLevel 0 data d;
       newOutputLevels := newOutputLevels s; newInputLevels := true |}
  else if addr =? 0x45 then
    {| dsp := set_inputLevel 1 data d;
       newOutputLevels := newOutputLevels s; newInputLevels := true |}
  else if addr =? 0x4a then
    {| dsp := set_outputLevel 0 data d;
       newOutputLevels := true; newInputLevels := newInputLevels s |}
  else if addr =? 0x4b then
    {| dsp := set_outputLevel 1 data d;
       newOutputLevels := true; newInputLevels := newInputLevels s |}
  else if addr =? 0x4c then
    {| dsp := set_outputLevel 2 data d;
       newOutputLevels := true; newInputLevels := newInputLevels s |}
  else if addr =? 0x4d then
    {| dsp := set_outputLevel 3 data d;
       newOutputLevels := true; newInputLevels := newInputLevels s |}
  else s.

(** [i << 2] is computed on [int], without wrap-around. *)
Fixpoint floatReadLoop (buf : Mem) (baseAddr : Z) (remaining : nat) (i : Z)
    (s : FloatLoop) : option FloatLoop :=
  match remaining with
  | O => Some s
  | S k =>
      let addr := wrap8 (baseAddr + i) in
      data ← getFloatLE buf (4 + Z.shiftl i 2);
      floatReadLoop buf baseAddr k (i + 1) (floatReadCase s addr data)
  end.

Definition parseFloatReadResponse (cb : Callbacks) (d : MiniDSP) (buf : Mem)
  : option Outcome :=
  b0 ← load buf 0;
  let dataLength := wrap8 (b0 - 4) in
  if negb (dataLength mod 4 =? 0) then Some (d, [])
  else
    let nFloats := dataLength / 4 in
    baseAddr ← load buf 3;
    s ← floatReadLoop buf baseAddr (Z.to_nat nFloats) 0
          {| dsp := d; newOutputLevels := false; newInputLevels := false |};
    let d := dsp s in
    Some (d,
          (if pFuncOnNewOutputLevels cb && newOutputLevels s
           then [OnNewOutputLevels (outputLevels d)] else [])
          ++ (if pFuncOnNewInputLevels cb && newInputLevels s
              then [OnNewInputLevels (inputLevels d)] else [])).

(** ** ParseHIDData

    [buf] is [None] for a null pointer; [len] is not looked at. *)

Definition readByteCommand : Z := 0x05.
Definition readByteHighAddr : Z := 0xFF.
Definition readFloatCommand : Z := 0x14.
Definition readFloatHighAddr : Z := 0x00.

(** [buf[i] == v] *)
Definition byte_is (buf : Mem) (i v : Z) : option bool :=
  b ← load buf i; Some (b =? v).

(** [a && b], the right operand evaluated only when the left one holds. *)
Definition and_then (a b : option bool) : option bool :=
  x ← a; (if x : bool then b else Some false).

(** The calls of the debug hook come before those of the parser. *)
Definition after (dbg : list Event) (r : option Outcome) : option Outcome :=
  '(d, ev) ← r; Some (d, dbg ++ ev).

Definition ParseHIDData (hid : HIDUniversal) (cb : Callbacks) (d : MiniDSP)
    (len : Z) (buf : option (list Z)) : option Outcome :=
  if negb (VID hid =? MINIDSP_VID) || negb (PID hid =? MINIDSP_PID)
  then Some (d, [])
  else
    match buf with
    | None => Some (d, [])
    | Some f =>
        let m := frame_mem f in
        let dbg := if pFuncOnParse cb then [OnParse f] else [] in
        after dbg (
          direct ← byte_is m 0 0x01;
          if direct : bool then parseDirectSetResponse cb d m
          else
            bytes ← and_then (byte_is m 1 readByteCommand)
                             (byte_is m 2 readByteHighAddr);
            if bytes : bool then parseByteReadResponse cb d m
            else
              floats ← and_then (byte_is m 1 readFloatCommand)
                                (byte_is m 2 readFloatHighAddr);
              if floats : bool then parseFloatReadResponse cb d m
              else Some (d, []))
    end.

(** ** setVolume(float)

    A finite [float] is a rational number.  The comparisons of [min] and
    [max] are exact, and so is the product by 2 of a value of magnitude at
    most 127, so the operand of the conversion is computed here as the
    machine computes it. *)

(** The [min] and [max] macros of the Arduino core (not part of this
    repository): [((a)<(b)?(a):(b))] and [((a)>(b)?(a):(b))]. *)
Definition min_macro (a b : Q) : Q := if Qlt_le_dec a b then a else b.
Definition max_macro (a b : Q) : Q := if Qlt_le_dec b a then a else b.

(** The operand [max(-127, min(0, volume)) * 2]. *)
Definition intVol_operand (volume : Q) : Q :=
  (max_macro (-127 # 1) (min_macro (0 # 1) volume) * (2 # 1))%Q.

(** Conversion of a [float] to [uint8_t]: the fractional part is discarded;
    the result is defined only when the truncated value fits the type. *)
Definition float_to_uint8 (x : Q) : option Z :=
  let t := Z.quot (Qnum x) (Z.pos (Qden x)) in
  if (0 <=? t) && (t <=? 255) then Some t else None.

Definition setVolume_float (volume : Q) : option (list (list Z)) :=
  intVol ← float_to_uint8 (intVol_operand volume);
  setVolume intVol.

(** ** What a read response carries

    The parsers' loops, read off a frame as lists: the (address, value) pairs
    in the order the loop meets them.  The lemmas below relate the loops to
    these lists whenever every access stays inside the frame. *)

(** Byte [i] of a frame (0 outside it). *)
Definition frame_byte (f : list Z) (i : Z) : Z := default 0 (f !! Z.to_nat i).

Definition byteReadPair (f : list Z) (baseAddr i : Z) : Z * Z :=
  (wrap8 (baseAddr + i), frame_byte f (i + 4)).

Definition byteReadPairs (f : list Z) (baseAddr dataLength : Z) : list (Z * Z) :=
  byteReadPair f baseAddr <$> seqZ 0 dataLength.

(** The loop body applied along a list of pairs. *)
Fixpoint byteReadRun (cb : Callbacks) (d : MiniDSP) (ps : list (Z * Z))
  : Outcome :=
  match ps with
  | [] => (d, [])
  | (addr, data) :: ps =>
      let '(d1, ev1) := byteReadCase cb d addr data in
      let '(d2, ev2) := byteReadRun cb d1 ps in
      (d2, ev1 ++ ev2)
  end.

(** The word at offset [off], little-endian. *)
Definition frame_word (f : list Z) (off : Z) : Z :=
  Z.lor (frame_byte f off)
    (Z.lor (Z.shiftl (frame_byte f (off + 1)) 8)
       (Z.lor (Z.shiftl (frame_byte f (off + 2)) 16)
          (Z.shiftl (frame_byte f (off + 3)) 24))).

Definition floatReadSample (f : list Z) (baseAddr i : Z) : Z * Z :=
  (wrap8 (baseAddr + i), frame_word f (4 + Z.shiftl i 2)).

Definition floatReadSamples (f : list Z) (baseAddr nFloats : Z) : list (Z * Z) :=
  floatReadSample f baseAddr <$> seqZ 0 nFloats.

Definition floatReadRun (s : FloatLoop) (ps : list (Z * Z)) : FloatLoop :=
  foldl (λ s p, floatReadCase s p.1 p.2) s ps.

(** The calls at the end of [parseFloatReadResponse]. *)
Definition levelCalls (cb : Callbacks) (s : FloatLoop) : list Event :=
  (if pFuncOnNewOutputLevels cb && newOutputLevels s
   then [OnNewOutputLevels (outputLevels (dsp s))] else [])
  ++ (if pFuncOnNewInputLevels cb && newInputLevels s
      then [OnNewInputLevels (inputLevels (dsp s))] else []).

(** The loop state with the notification mode replaced. *)
Definition withAlways (b : bool) (s : FloatLoop) : FloatLoop :=
  {| dsp := set_callbackAlways b (dsp s);
     newOutputLevels := newOutputLevels s;
     newInputLevels := newInputLevels s |}.

(** The address groups of the level meters. *)
Definition isOutputAddr (addr : Z) : bool := (0x4A <=? addr) && (addr <=? 0x4D).
Definition isInputAddr (addr : Z) : bool := (0x44 <=? addr) && (addr <=? 0x45).

(** Some address among [baseAddr .. baseAddr + n - 1] (modulo 256) belongs to
    the group. *)
Definition groupPresent (isGroup : Z → bool) (baseAddr n : Z) : bool :=
  existsb (λ i, isGroup (wrap8 (baseAddr + i))) (seqZ 0 n).

(** The level a float-read address is stored in: [inl k] is
    [inputLevels[k]], [inr k] is [outputLevels[k]]. *)
Definition levelSlot (addr : Z) : option (nat + nat) :=
  if addr =? 0x44 then Some (inl 0%nat)
  else if addr =? 0x45 then Some (inl 1%nat)
  else if addr =? 0x4a then Some (inr 0%nat)
  else if addr =? 0x4b then Some (inr 1%nat)
  else if addr =? 0x4c then Some (inr 2%nat)
  else if addr =? 0x4d then Some (inr 3%nat)
  else None.

Definition getLevel (slot : nat + nat) (d : MiniDSP) : option Z :=
  match slot with
  | inl k => inputLevels d !! k
  | inr k => outputLevels d !! k
  end.

(** The fields the byte-read table maps addresses to. *)
Inductive Field := FPreset | FSource | FVolume | FMuted.

#[global] Instance Field_eq_dec : EqDecision Field.
Proof. solve_decision. Defined.

Definition fieldOf (addr : Z) : option Field :=
  if addr =? 0xD8 then Some FPreset
  else if (addr =? 0xA9) || (addr =? 0xD9) then Some FSource
  else if addr =? 0xDA then Some FVolume
  else if addr =? 0xDB then Some FMuted
  else None.

Definition getField (fl : Field) (d : MiniDSP) : Z :=
  match fl with
  | FPreset => preset d
  | FSource => source d
  | FVolume => volume d
  | FMuted => muted d
  end.

(** The calls one (address, value) pair causes when every update is
    reported. *)
Definition alwaysCalls (cb : Callbacks) (p : Z * Z) : list Event :=
  match fieldOf p.1 with
  | Some FSource => if pFuncOnSourceChange cb then [OnSourceChange p.2] else []
  | Some FVolume =>
      if pFuncOnVolumeChange cb then [OnVolumeChange (wrap8 p.2)] else []
  | Some FMuted =>
      if pFuncOnMutedChange cb then [OnMutedChange (negb (p.2 =? 0))] else []
  | _ => []
  end.

(** No two pairs of the list give different values to one field. *)
Definition consistentPairs (ps : list (Z * Z)) : Prop :=
  ∀ a x a' x' fl,
    (a, x) ∈ ps → (a', x') ∈ ps →
    fieldOf a = Some fl → fieldOf a' = Some fl → x = x'.

(** The calls a direct-set frame causes when every update is reported. *)
Definition directSetCalls (cb : Callbacks) (opcode data : Z) : list Event :=
  if opcode =? 0x42 then
    if pFuncOnVolumeChange cb then [OnVolumeChange (wrap8 data)] else []
  else if opcode =? 0x17 then
    if pFuncOnMutedChange cb then [OnMutedChange (negb (data =? 0))] else []
  else if opcode =? 0x34 then
    if pFuncOnSourceChange cb then [OnSourceChange data] else []
  else [].

(** The arguments of the volume callback in a list of calls. *)
Definition volumeCalls (ev : list Event) : list Z :=
  omap (λ e, match e with OnVolumeChange v => Some v | _ => None end) ev.

(** The frame carries both source addresses, [0xA9] and [0xD9], with
    different values. *)
Definition sourceConflict (f : list Z) : Prop :=
  ∃ b0 base i j,
    f !! 0%nat = Some b0 ∧ f !! 3%nat = Some base
    ∧ 0 <= i < wrap8 (b0 - 4) ∧ 0 <= j < wrap8 (b0 - 4)
    ∧ wrap8 (base + i) = 0xA9 ∧ wrap8 (base + j) = 0xD9
    ∧ frame_byte f (i + 4) ≠ frame_byte f (j + 4).

(** ** Concrete inputs used by the examples *)

Definition all_callbacks : Callbacks := {|
  pFuncOnInit := true; pFuncOnSourceChange := true;
  pFuncOnVolumeChange := true; pFuncOnMutedChange := true;
  pFuncOnParse := true; pFuncOnNewOutputLevels := true;
  pFuncOnNewInputLevels := true |}.

Definition minidsp_2x4hd : HIDUniversal :=
  {| VID := MINIDSP_VID; PID := MINIDSP_PID |}.

(** A frame that starts with [l] and is padded to 64 bytes with [0xFF]. *)
Definition padded (l : list Z) : list Z := l ++ replicate (64 - length l) 0xFF.

(** A byte-read frame of 49 data bytes from [0xA9]: source 0 at [0xA9],
    source 1 at [0xD9], zeros in between. *)
Definition two_sources_frame : list Z :=
  padded ([53; 0x05; 0xFF; 0xA9] ++ [0] ++ replicate 47 0 ++ [1]).

(** The float-read frame with the word of 10.0 at [0x4A]. *)
Definition level_frame : list Z :=
  padded [8; 0x14; 0x00; 0x4A; 0x00; 0x00; 0x20; 0x41].

(** ** Accessors of the header *)

(** [getVolume] returns [volume] as an [int]; the stored values are at most
    [0x100] and fit. *)
Definition getVolume (d : MiniDSP) : Z := volume d.

(** [volume / -2.0]: the quotient of a 16-bit integer by 2 is exact in
    floating point, so it is the rational number. *)
Definition getVolumeDB (d : MiniDSP) : Q := (inject_Z (volume d) / (-2 # 1))%Q.

Definition isMuted (d : MiniDSP) : bool := negb (muted d =? 0).

Definition getSource (d : MiniDSP) : Z := source d.

(** ** Notions used by the further properties *)

(** The sum of a list of bytes, without wrap-around. *)
Definition byte_sum (l : list Z) : Z := foldr Z.add 0 l.

(** What the members hold in every state the parsers can produce from byte
    frames: bytes, or the initial [0x100] for [volume], and level arrays of
    their declared sizes. *)
Definition wf_state (d : MiniDSP) : Prop :=
  is_byte (preset d) ∧ is_byte (source d) ∧ 0 <= volume d <= 0x100
  ∧ is_byte (muted d)
  ∧ length (outputLevels d) = 4%nat ∧ length (inputLevels d) = 2%nat.

(** The (address, value) pairs of [data] read from [baseAddr] on. *)
Definition addressed (baseAddr : Z) (data : list Z) : list (Z * Z) :=
  imap (λ i x, (wrap8 (baseAddr + Z.of_nat i), x)) data.

(** A call of one of the two level callbacks. *)
Definition isLevelCall (e : Event) : bool :=
  match e with
  | OnNewOutputLevels _ | OnNewInputLevels _ => true
  | _ => false
  end.

(** Two results of a parser are both undefined, or both defined with states
    related by [R] and calls related by [E]. *)
Definition outcomes_related (R : MiniDSP → MiniDSP → Prop)
    (E : list Event → list Event → Prop) (o1 o2 : option Outcome) : Prop :=
  match o1, o2 with
  | Some (d1, ev1), Some (d2, ev2) => R d1 d2 ∧ E ev1 ev2
  | None, None => True
  | _, _ => False
  end.

(** The field a callback reports, and the calls of a list that report a
    given field. *)
Definition eventField (e : Event) : option Field :=
  match e with
  | OnSourceChange _ => Some FSource
  | OnVolumeChange _ => Some FVolume
  | OnMutedChange _ => Some FMuted
  | _ => None
  end.

Definition fieldCalls (fl : Field) (ev : list Event) : list Event :=
  filter (λ e, eventField e = Some fl) ev.

(** The field a direct-set opcode addresses. *)
Definition directSetField (opcode : Z) : option Field :=
  if opcode =? 0x42 then Some FVolume
  else if opcode =? 0x17 then Some FMuted
  else if opcode =? 0x34 then Some FSource
  else None.
(** * Properties of the frame encoder *)

Section Encoder.

Lemma load_frame_mem (f : list Z) (i : nat) :
  load (frame_mem f) (Z.of_nat i) = f !! i.
Proof.
  unfold load, frame_mem.
  destruct (Z.leb_spec 0 (Z.of_nat i)); [|lia].
  rewrite Nat2Z.id, list_lookup_fmap. by destruct (f !! i).
Qed.

Lemma load_app_l (p q : Mem) (i : Z) :
  0 <= i < Z.of_nat (length p) → load (p ++ q) i = load p i.
Proof.
  intros Hi. unfold load. destruct (0 <=? i); [|done].
  rewrite lookup_app_l; [done | lia].
Qed.

Lemma Checksum_loop_frame (pre l : list Z) (rest : Mem) (s : Z) :
  Checksum_loop (frame_mem (pre ++ l) ++ rest) (length l)
                (Z.of_nat (length pre)) s = Some (sum16 s l).
Proof.
  revert pre s. induction l as [|a l IH]; intros pre s; [done|].
  cbn [length Checksum_loop].
  rewrite load_app_l.
  2:{ unfold frame_mem. rewrite length_fmap, length_app. cbn. lia. }
  rewrite load_frame_mem, lookup_app_r, Nat.sub_diag by lia. cbn.
  replace (Z.of_nat (length pre) + 1) with (Z.of_nat (length (pre ++ [a])))
    by (rewrite length_app; cbn; lia).
  replace (pre ++ a :: l) with ((pre ++ [a]) ++ l) by (by rewrite <-app_assoc).
  apply IH.
Qed.

Lemma Checksum_frame (l : list Z) (rest : Mem) :
  Checksum (frame_mem l ++ rest) (Z.of_nat (length l))
  = Some (Z.land (sum16 0 l) 0xFF).
Proof.
  unfold Checksum. rewrite Nat2Z.id.
  by rewrite (Checksum_loop_frame [] l rest 0 : Checksum_loop (frame_mem l ++ rest) (length l) 0 0 = _).
Qed.

Lemma contents_frame_mem (f : list Z) : contents (frame_mem f) = Some f.
Proof.
  unfold contents, frame_mem. apply mapM_Some.
  induction f; constructor; auto.
Qed.

Lemma store_at (pre post : list (option Z)) (x : option Z) (i v : Z) :
  i = Z.of_nat (length pre) →
  store (pre ++ x :: post) i v = Some (pre ++ Some v :: post).
Proof.
  intros ->. unfold store. rewrite length_app. cbn [length].
  destruct (Z.leb_spec 0 (Z.of_nat (length pre))); [|lia].
  destruct (Z.ltb_spec (Z.of_nat (length pre))
              (Z.of_nat (length pre + S (length post)))); [|lia].
  cbn [andb]. rewrite Nat2Z.id.
  replace (length pre) with (length pre + 0)%nat at 1 by lia.
  by rewrite insert_app_r.
Qed.

Lemma memcpy_at (pre mid post : list (option Z)) (src : list Z) (off n : Z) :
  off = Z.of_nat (length pre) → n = Z.of_nat (length src) →
  length mid = length src →
  memcpy (pre ++ mid ++ post) off src n = Some (pre ++ frame_mem src ++ post).
Proof.
  intros -> -> Hmid. unfold memcpy. rewrite !length_app, Hmid.
  repeat match goal with
         | |- context [?a <=? ?b] => destruct (Z.leb_spec a b); [|lia]
         end.
  cbn [andb]. rewrite !Nat2Z.id, firstn_all.
  replace (length pre) with (length pre + 0)%nat at 1 by lia.
  rewrite list_inserts_app_r, list_inserts_0_r; [done|].
  unfold frame_mem. by rewrite length_fmap.
Qed.

Lemma memset_at (pre mid : list (option Z)) (off c n : Z) :
  off = Z.of_nat (length pre) → n = Z.of_nat (length mid) →
  memset (pre ++ mid) off c n
  = Some (pre ++ replicate (length mid) (Some c)).
Proof.
  intros -> ->. unfold memset. rewrite !length_app.
  repeat match goal with
         | |- context [?a <=? ?b] => destruct (Z.leb_spec a b); [|lia]
         end.
  cbn [andb]. rewrite !Nat2Z.id.
  replace (length pre) with (length pre + 0)%nat at 1 by lia.
  rewrite list_inserts_app_r.
  rewrite <-(app_nil_r mid) at 2.
  rewrite list_inserts_0_r, app_nil_r; [done|].
  by rewrite length_replicate.
Qed.

Lemma SendCommand_encoded (command : list Z) :
  (length command ≤ 62)%nat →
  SendCommand command (Z.of_nat (length command)) = Some [encoded command].
Proof.
  intros HL. unfold SendCommand, encoded.
  set (L := length command) in *. set (h := Z.of_nat L + 1).
  destruct (Z.gtb_spec (Z.of_nat L) 63); [lia|].
  assert (wrap8 h = h) as ->
    by (unfold wrap8; apply Z.mod_small; lia).
  change (replicate 64 None) with ([] ++ @None Z :: replicate 63 None).
  rewrite store_at by done. cbn [mbind option_bind app].
  replace 63%nat with (L + S (62 - L))%nat by lia.
  rewrite replicate_add.
  change (Some h :: ?t) with ([Some h] ++ t).
  rewrite (memcpy_at [Some h] (replicate L None) (replicate (S (62 - L)) None)
             command 1 (Z.of_nat L) eq_refl eq_refl)
    by (by rewrite length_replicate).
  cbn [mbind option_bind].
  change ([Some h] ++ frame_mem command ++ ?r)
    with (frame_mem (h :: command) ++ r).
  assert (Hh : h = Z.of_nat (length (h :: command))) by (cbn [length]; lia).
  rewrite Hh at 2. rewrite Checksum_frame. cbn [mbind option_bind replicate].
  set (c := Z.land _ _).
  rewrite store_at
    by (unfold frame_mem; rewrite length_fmap; cbn [length]; lia).
  cbn [mbind option_bind].
  replace (frame_mem (h :: command) ++ Some c :: replicate (62 - L) None)
    with ((frame_mem (h :: command) ++ [Some c]) ++ replicate (62 - L) None)
    by (by rewrite <-app_assoc).
  rewrite memset_at.
  2:{ unfold frame_mem. rewrite length_app, length_fmap. cbn [length]. lia. }
  2:{ rewrite length_replicate. lia. }
  cbn [mbind option_bind]. rewrite length_replicate.
  replace ((frame_mem (h :: command) ++ [Some c])
           ++ replicate (62 - L) (Some 255))
    with (frame_mem ((h :: command) ++ c :: replicate (62 - L) 255)).
  2:{ unfold frame_mem. rewrite fmap_app, <-app_assoc. cbn [fmap list_fmap app].
      by rewrite fmap_replicate. }
  by rewrite contents_frame_mem.
Qed.

Example setVolume_20 :
  setVolume 20 = Some [[0x03; 0x42; 0x14; 0x59] ++ replicate 60 0xFF].
Proof. vm_compute. reflexivity. Qed.

(** C1.  A command of length [L <= 61] makes [SendCommand] hand exactly one
    buffer of 64 bytes to the transport: byte 0 is [L + 1], bytes [1 .. L]
    are the command, byte [L + 1] is [Checksum] of the first [L + 1] bytes of
    that buffer, and bytes [L + 2 .. 63] are [0xFF]. *)
Theorem SendCommand_frame_layout (command : list Z) (L : nat) :
  length command = L → (L ≤ 61)%nat →
  ∃ frame c,
    SendCommand command (Z.of_nat L) = Some [frame]
    ∧ length frame = 64%nat
    ∧ frame !! 0%nat = Some (Z.of_nat L + 1)
    ∧ (∀ k, (k < L)%nat → frame !! S k = command !! k)
    ∧ Checksum (frame_mem frame) (Z.of_nat L + 1) = Some c
    ∧ frame !! S L = Some c
    ∧ (∀ k, (L + 2 ≤ k ≤ 63)%nat → frame !! k = Some 0xFF).
Proof.
  intros <- HL.
  exists (encoded command).
  exists (Z.land (sum16 0 ((Z.of_nat (length command) + 1) :: command)) 0xFF).
  split; [apply SendCommand_encoded; lia|].
  unfold encoded. set (h := Z.of_nat (length command) + 1).
  set (c := Z.land _ _).
  split_and!.
  - rewrite length_app, length_cons, length_cons, length_replicate. lia.
  - done.
  - intros k Hk.
    change (((h :: command) ++ ?r) !! S k) with ((command ++ r) !! k).
    by rewrite lookup_app_l.
  - unfold frame_mem. rewrite fmap_app.
    assert (Hh : h = Z.of_nat (length (h :: command))) by (cbn [length]; lia).
    rewrite Hh at 2. apply Checksum_frame.
  - change (((h :: command) ++ ?r) !! S ?k) with ((command ++ r) !! k).
    by rewrite lookup_app_r, Nat.sub_diag.
  - intros k [Hk1 Hk2]. destruct k as [|k]; [lia|].
    change (((h :: command) ++ ?r) !! S k) with ((command ++ r) !! k).
    rewrite lookup_app_r by lia.
    destruct (k - length command)%nat as [|j] eqn:Hj; [lia|].
    change ((c :: ?r) !! S j) with (r !! j).
    apply lookup_replicate_2. lia.
Qed.

Lemma SendCommand_frame_layout_witness :
  ∃ frame c,
    SendCommand [0x42; 0x14] 2 = Some [frame]
    ∧ length frame = 64%nat
    ∧ frame !! 0%nat = Some 3
    ∧ (∀ k, (k < 2)%nat → frame !! S k = [0x42; 0x14] !! k)
    ∧ Checksum (frame_mem frame) 3 = Some c
    ∧ frame !! 3%nat = Some c
    ∧ (∀ k, (2 + 2 ≤ k ≤ 63)%nat → frame !! k = Some 0xFF).
Proof.
  apply (SendCommand_frame_layout [0x42; 0x14] 2); [reflexivity | lia].
Defined.

(** The guard of [SendCommand]: a length above 63 returns before anything is
    built. *)
Lemma SendCommand_guard (command : list Z) (n : Z) :
  63 < n → SendCommand command n = Some [].
Proof.
  intros Hn. unfold SendCommand. by destruct (Z.gtb_spec n 63); [|lia].
Qed.

(** A command of 63 bytes is built up to the checksum, whose store at index
    64 leaves the buffer. *)
Lemma SendCommand_63_overrun (command : list Z) :
  length command = 63%nat → SendCommand command 63 = None.
Proof.
  intros HL. unfold SendCommand. cbn [Z.gtb Z.compare Pos.compare Pos.compare_cont].
  change (wrap8 (63 + 1)) with 64.
  change (replicate 64 None) with ([] ++ @None Z :: replicate 63 None).
  rewrite store_at by done. cbn [mbind option_bind app].
  change (Some 64 :: replicate 63 None)
    with ([Some 64] ++ replicate 63 None ++ []).
  rewrite (memcpy_at [Some 64] (replicate 63 None) [] command 1 63)
    by (rewrite ?length_replicate, ?HL; done).
  cbn [mbind option_bind].
  change ([Some 64] ++ frame_mem command ++ [])
    with (frame_mem (64 :: command) ++ []).
  assert (Hh : 64 = Z.of_nat (length (64 :: command)))
    by (cbn [length]; lia).
  rewrite Hh at 2. rewrite Checksum_frame. cbn [mbind option_bind].
  unfold store. rewrite app_nil_r. unfold frame_mem.
  rewrite length_fmap. cbn [length]. rewrite HL. done.
Qed.

(** C2 (code at the failing input).  A command of 63 bytes passes the guard
    [command_length > 63]; the checksum is then stored at [buf[64]], outside
    the 64-byte buffer.  The call is not a rejection. *)
Theorem SendCommand_length_63 :
  SendCommand (replicate 63 0x00) 63 = None
  ∧ SendCommand (replicate 63 0x00) 63 ≠ Some [].
Proof. split; [by vm_compute | by vm_compute]. Qed.

End Encoder.

(** * Properties of the response parsers *)

Section Parsers.

Context (cb : Callbacks).

Lemma load_frame (f : list Z) (i : Z) :
  0 <= i → load (frame_mem f) i = f !! Z.to_nat i.
Proof.
  intros Hi. rewrite <-(Z2Nat.id i) at 1 by done. apply load_frame_mem.
Qed.

Lemma load_frame_Some (f : list Z) (i : Z) (b : Z) :
  0 <= i → f !! Z.to_nat i = Some b → load (frame_mem f) i = Some b.
Proof. intros Hi Hb. by rewrite load_frame. Qed.

Lemma load_frame_None (f : list Z) (i : Z) :
  Z.of_nat (length f) <= i → load (frame_mem f) i = None.
Proof.
  intros Hi. rewrite load_frame by lia. apply lookup_ge_None_2. lia.
Qed.

Lemma lookup_frame (f : list Z) (n i : nat) :
  length f = n → (i < n)%nat → ∃ b, f !! i = Some b.
Proof. intros <- Hi. by apply lookup_lt_is_Some_2. Qed.

(** ** The direct-set parser *)

(** C9.  A direct-set frame changes at most one of [volume], [muted] and
    [source]: opcode [0x42] stores the value byte in [volume] and nothing
    else, [0x17] in [muted], [0x34] in [source]; with any other opcode the
    state is the one before and no callback is called. *)
Theorem parseDirectSetResponse_one_field (d : MiniDSP) (f : list Z) :
  length f = 64%nat → f !! 0%nat = Some 0x01 →
  ∃ opcode data d' ev,
    f !! 1%nat = Some opcode ∧ f !! 2%nat = Some data
    ∧ parseDirectSetResponse cb d (frame_mem f) = Some (d', ev)
    ∧ (opcode = 0x42 → d' = set_volume data d)
    ∧ (opcode = 0x17 → d' = set_muted data d)
    ∧ (opcode = 0x34 → d' = set_source data d)
    ∧ (opcode ≠ 0x42 → opcode ≠ 0x17 → opcode ≠ 0x34 → d' = d ∧ ev = []).
Proof.
  intros Hlen _.
  destruct (lookup_frame f 64 1 Hlen) as [opcode Hop]; [lia|].
  destruct (lookup_frame f 64 2 Hlen) as [data Hdata]; [lia|].
  exists opcode, data. unfold parseDirectSetResponse.
  rewrite (load_frame_Some f 2 data), (load_frame_Some f 1 opcode) by done.
  cbn [mbind option_bind].
  destruct (Z.eqb_spec opcode 0x42) as [->|H42].
  { eexists _, _. split_and!; try done. }
  destruct (Z.eqb_spec opcode 0x17) as [->|H17].
  { eexists _, _. split_and!; try done. }
  destruct (Z.eqb_spec opcode 0x34) as [->|H34].
  { eexists _, _. split_and!; try done. }
  eexists _, _. split_and!; try done.
Qed.

(** ** The float-read parser: malformed length *)

Lemma parseFloatReadResponse_stops (d : MiniDSP) (f : list Z) (b0 : Z) :
  f !! 0%nat = Some b0 → wrap8 (b0 - 4) mod 4 ≠ 0 →
  parseFloatReadResponse cb d (frame_mem f) = Some (d, []).
Proof.
  intros Hb0 Hmod. unfold parseFloatReadResponse.
  rewrite (load_frame_Some f 0 b0) by done. cbn [mbind option_bind].
  by destruct (Z.eqb_spec (wrap8 (b0 - 4) mod 4) 0).
Qed.

(** C7.  When the data length [frame[0] - 4] (in 8-bit arithmetic) is not a
    multiple of 4, the float-read parser returns with the state it was given
    and calls nothing. *)
Theorem parseFloatReadResponse_malformed (d : MiniDSP) (f : list Z) (b0 : Z) :
  length f = 64%nat → f !! 0%nat = Some b0 →
  wrap8 (b0 - 4) mod 4 ≠ 0 →
  parseFloatReadResponse cb d (frame_mem f) = Some (d, []).
Proof.
  intros Hlen Hb0 Hmod. unfold parseFloatReadResponse.
  rewrite (load_frame_Some f 0 b0) by done. cbn [mbind option_bind].
  by destruct (Z.eqb_spec (wrap8 (b0 - 4) mod 4) 0).
Qed.

(** ** The classifier *)

Lemma byte_is_frame (f : list Z) (i v b : Z) :
  0 <= i → f !! Z.to_nat i = Some b →
  byte_is (frame_mem f) i v = Some (b =? v).
Proof.
  intros Hi Hb. unfold byte_is. by rewrite (load_frame_Some f i b).
Qed.

(** C4.  A frame of the device is classified by the first rule that applies:
    [frame[0] == 0x01] runs the direct-set parser; else [frame[1] == 0x05]
    with [frame[2] == 0xFF] runs the byte-read parser; else
    [frame[1] == 0x14] with [frame[2] == 0x00] runs the float-read parser;
    else the state is kept and no parser runs.  The debug hook, when
    attached, is called first in every case. *)
Theorem ParseHIDData_classification (hid : HIDUniversal) (d : MiniDSP)
    (len : Z) (f : list Z) (b0 b1 b2 : Z) :
  VID hid = MINIDSP_VID → PID hid = MINIDSP_PID →
  length f = 64%nat →
  f !! 0%nat = Some b0 → f !! 1%nat = Some b1 → f !! 2%nat = Some b2 →
  let dbg := if pFuncOnParse cb then [OnParse f] else [] in
  let m := frame_mem f in
  (b0 = 0x01 →
     ParseHIDData hid cb d len (Some f)
     = after dbg (parseDirectSetResponse cb d m))
  ∧ (b0 ≠ 0x01 → b1 = 0x05 ∧ b2 = 0xFF →
     ParseHIDData hid cb d len (Some f)
     = after dbg (parseByteReadResponse cb d m))
  ∧ (b0 ≠ 0x01 → ¬ (b1 = 0x05 ∧ b2 = 0xFF) → b1 = 0x14 ∧ b2 = 0x00 →
     ParseHIDData hid cb d len (Some f)
     = after dbg (parseFloatReadResponse cb d m))
  ∧ (b0 ≠ 0x01 → ¬ (b1 = 0x05 ∧ b2 = 0xFF) → ¬ (b1 = 0x14 ∧ b2 = 0x00) →
     ParseHIDData hid cb d len (Some f) = Some (d, dbg)).
Proof.
  intros HV HP Hlen H0 H1 H2 dbg m.
  assert (Hparse : ParseHIDData hid cb d len (Some f)
    = after dbg
        (if b0 =? 0x01 then parseDirectSetResponse cb d m
         else if (b1 =? 0x05) && (b2 =? 0xFF)
              then parseByteReadResponse cb d m
         else if (b1 =? 0x14) && (b2 =? 0x00)
              then parseFloatReadResponse cb d m
         else Some (d, []))).
  { unfold ParseHIDData. rewrite HV, HP, !Z.eqb_refl. cbn [negb orb].
    fold dbg m. f_equal. unfold m, readByteCommand, readByteHighAddr,
      readFloatCommand, readFloatHighAddr.
    rewrite (byte_is_frame f 0 _ b0), (byte_is_frame f 1 _ b1),
      (byte_is_frame f 1 _ b1), (byte_is_frame f 2 _ b2),
      (byte_is_frame f 2 _ b2) by done.
    cbn [mbind option_bind and_then].
    destruct (b0 =? 1); [done|].
    destruct (b1 =? 5), (b1 =? 20), (b2 =? 255), (b2 =? 0); done. }
  rewrite Hparse. split_and!.
  - intros ->. done.
  - intros Hb0 [-> ->]. by destruct (Z.eqb_spec b0 1).
  - intros Hb0 Hnb [-> ->]. by destruct (Z.eqb_spec b0 1).
  - intros Hb0 Hnb Hnf. destruct (Z.eqb_spec b0 1); [done|].
    destruct (Z.eqb_spec b1 5), (Z.eqb_spec b2 255), (Z.eqb_spec b1 20),
      (Z.eqb_spec b2 0); cbn [andb after mbind option_bind];
      rewrite ?app_nil_r; try done; exfalso; lia.
Qed.

End Parsers.

(** * The loops as runs over lists *)

Section Loops.

Context (cb : Callbacks).

Lemma load_frame_byte (f : list Z) (i : Z) :
  0 <= i < Z.of_nat (length f) →
  load (frame_mem f) i = Some (frame_byte f i).
Proof.
  intros Hi. rewrite load_frame by lia. unfold frame_byte.
  destruct (lookup_lt_is_Some_2 f (Z.to_nat i)) as [b ->]; [lia | done].
Qed.

Lemma byteReadLoop_run (f : list Z) (baseAddr : Z) (n : nat) (i : Z)
    (d : MiniDSP) :
  0 <= i → i + 4 + Z.of_nat n <= Z.of_nat (length f) →
  byteReadLoop cb (frame_mem f) baseAddr n i d
  = Some (byteReadRun cb d (byteReadPair f baseAddr <$> seqZ i (Z.of_nat n))).
Proof.
  revert i d. induction n as [|n IH]; intros i d Hi Hn; [done|].
  rewrite seqZ_cons by lia.
  replace (Z.pred (Z.of_nat (S n))) with (Z.of_nat n) by lia.
  cbn [byteReadLoop fmap list_fmap byteReadRun].
  rewrite load_frame_byte by lia. cbn [mbind option_bind].
  unfold byteReadPair at 1.
  destruct (byteReadCase cb d _ _) as [d1 ev1].
  rewrite IH by lia. cbn [mbind option_bind].
  replace (Z.succ i) with (i + 1) by lia.
  by destruct (byteReadRun cb d1 _).
Qed.

Lemma byteReadLoop_overrun (f : list Z) (baseAddr : Z) (n : nat) (i : Z)
    (d : MiniDSP) :
  0 <= i → (0 < n)%nat → Z.of_nat (length f) < i + 4 + Z.of_nat n →
  byteReadLoop cb (frame_mem f) baseAddr n i d = None.
Proof.
  revert i d. induction n as [|n IH]; intros i d Hi Hn Hlen; [lia|].
  cbn [byteReadLoop].
  destruct (Z.le_gt_cases (Z.of_nat (length f)) (i + 4)) as [Hout|Hin].
  { by rewrite load_frame_None. }
  rewrite load_frame_byte by lia. cbn [mbind option_bind].
  destruct (byteReadCase cb d _ _) as [d1 ev1].
  by rewrite IH by lia.
Qed.

Lemma getFloatLE_frame (f : list Z) (off : Z) :
  0 <= off → off + 4 <= Z.of_nat (length f) →
  getFloatLE (frame_mem f) off = Some (frame_word f off).
Proof.
  intros H0 H4. unfold getFloatLE.
  rewrite !load_frame_byte by lia. done.
Qed.

Lemma getFloatLE_overrun (f : list Z) (off : Z) :
  0 <= off → Z.of_nat (length f) < off + 4 →
  getFloatLE (frame_mem f) off = None.
Proof.
  intros H0 H4. unfold getFloatLE.
  destruct (Z.le_gt_cases (Z.of_nat (length f)) off);
    [by rewrite (load_frame_None f off)|].
  rewrite (load_frame_byte f off) by lia. cbn [mbind option_bind].
  destruct (Z.le_gt_cases (Z.of_nat (length f)) (off + 1));
    [by rewrite (load_frame_None f (off + 1))|].
  rewrite (load_frame_byte f (off + 1)) by lia. cbn [mbind option_bind].
  destruct (Z.le_gt_cases (Z.of_nat (length f)) (off + 2));
    [by rewrite (load_frame_None f (off + 2))|].
  rewrite (load_frame_byte f (off + 2)) by lia. cbn [mbind option_bind].
  by rewrite load_frame_None by lia.
Qed.

Lemma floatReadLoop_run (f : list Z) (baseAddr : Z) (n : nat) (i : Z)
    (s : FloatLoop) :
  0 <= i → 4 + 4 * (i + Z.of_nat n) <= Z.of_nat (length f) →
  floatReadLoop (frame_mem f) baseAddr n i s
  = Some (floatReadRun s (floatReadSample f baseAddr <$> seqZ i (Z.of_nat n))).
Proof.
  revert i s. induction n as [|n IH]; intros i s Hi Hn; [done|].
  rewrite seqZ_cons by lia.
  replace (Z.pred (Z.of_nat (S n))) with (Z.of_nat n) by lia.
  cbn [floatReadLoop fmap list_fmap]. unfold floatReadRun. cbn [foldl].
  rewrite getFloatLE_frame by (rewrite ?Z.shiftl_mul_pow2; lia).
  cbn [mbind option_bind].
  replace (Z.succ i) with (i + 1) by lia.
  rewrite IH by lia. done.
Qed.

Lemma floatReadLoop_overrun (f : list Z) (baseAddr : Z) (n : nat) (i : Z)
    (s : FloatLoop) :
  0 <= i → (0 < n)%nat → Z.of_nat (length f) < 4 + 4 * (i + Z.of_nat n) →
  floatReadLoop (frame_mem f) baseAddr n i s = None.
Proof.
  revert i s. induction n as [|n IH]; intros i s Hi Hn Hlen; [lia|].
  cbn [floatReadLoop].
  destruct (Z.le_gt_cases (4 + 4 * i + 4) (Z.of_nat (length f))) as [Hin|Hout].
  - rewrite getFloatLE_frame by (rewrite ?Z.shiftl_mul_pow2; lia).
    cbn [mbind option_bind]. apply IH; lia.
  - by rewrite getFloatLE_overrun by (rewrite ?Z.shiftl_mul_pow2; lia).
Qed.

End Loops.

(** * Accesses of the read parsers and the frame bounds *)

Section Bounds.

Context (cb : Callbacks).

Lemma wrap8_sub4_ge (b0 : Z) : 4 <= b0 < 256 → wrap8 (b0 - 4) = b0 - 4.
Proof. unfold wrap8. intros Hb. apply Z.mod_small. lia. Qed.

Lemma wrap8_sub4_lt (b0 : Z) : 0 <= b0 < 4 → wrap8 (b0 - 4) = b0 + 252.
Proof. unfold wrap8. intros Hb. Z.div_mod_to_equations. lia. Qed.

Lemma parseByteReadResponse_run (d : MiniDSP) (f : list Z) (b0 base : Z) :
  length f = 64%nat → f !! 0%nat = Some b0 → f !! 3%nat = Some base →
  4 <= b0 <= 64 →
  parseByteReadResponse cb d (frame_mem f)
  = Some (byteReadRun cb d (byteReadPairs f base (b0 - 4))).
Proof.
  intros Hlen H0 H3 Hb. unfold parseByteReadResponse, byteReadPairs.
  rewrite (load_frame_Some f 0 b0), (load_frame_Some f 3 base) by done.
  cbn [mbind option_bind].
  rewrite wrap8_sub4_ge by lia.
  rewrite byteReadLoop_run by lia. by rewrite Z2Nat.id by lia.
Qed.

Lemma parseByteReadResponse_defined (d : MiniDSP) (f : list Z) (b0 : Z) :
  length f = 64%nat → f !! 0%nat = Some b0 → is_byte b0 →
  is_Some (parseByteReadResponse cb d (frame_mem f)) ↔ 4 <= b0 <= 64.
Proof.
  intros Hlen H0 Hb. unfold is_byte in Hb.
  destruct (lookup_frame f 64 3 Hlen) as [base H3]; [lia|].
  split.
  - intros Hsome.
    destruct (Z_lt_le_dec b0 4) as [Hlt|Hge].
    + exfalso. revert Hsome. unfold parseByteReadResponse.
      rewrite (load_frame_Some f 0 b0), (load_frame_Some f 3 base) by done.
      cbn [mbind option_bind].
      rewrite wrap8_sub4_lt by lia.
      rewrite byteReadLoop_overrun by lia. by intros [? ?].
    + destruct (Z_le_gt_dec b0 64) as [Hle|Hgt]; [lia|].
      exfalso. revert Hsome. unfold parseByteReadResponse.
      rewrite (load_frame_Some f 0 b0), (load_frame_Some f 3 base) by done.
      cbn [mbind option_bind].
      rewrite wrap8_sub4_ge by lia.
      rewrite byteReadLoop_overrun by lia. by intros [? ?].
  - intros Hin. by rewrite (parseByteReadResponse_run d f b0 base).
Qed.

Lemma parseFloatReadResponse_run (d : MiniDSP) (f : list Z) (b0 base : Z) :
  length f = 64%nat → f !! 0%nat = Some b0 → f !! 3%nat = Some base →
  4 <= b0 <= 64 → (b0 - 4) mod 4 = 0 →
  let s := floatReadRun
             {| dsp := d; newOutputLevels := false; newInputLevels := false |}
             (floatReadSamples f base ((b0 - 4) / 4)) in
  parseFloatReadResponse cb d (frame_mem f) = Some (dsp s, levelCalls cb s).
Proof.
  intros Hlen H0 H3 Hb Hmod s. unfold parseFloatReadResponse.
  rewrite (load_frame_Some f 0 b0), (load_frame_Some f 3 base) by done.
  cbn [mbind option_bind].
  rewrite wrap8_sub4_ge by lia.
  rewrite Hmod. cbn [Z.eqb negb].
  rewrite floatReadLoop_run.
  2: lia.
  2:{ rewrite Z2Nat.id by (apply Z.div_pos; lia).
      rewrite Hlen. Z.div_mod_to_equations. lia. }
  rewrite Z2Nat.id by (apply Z.div_pos; lia). done.
Qed.

Lemma parseFloatReadResponse_defined (d : MiniDSP) (f : list Z) (b0 : Z) :
  length f = 64%nat → f !! 0%nat = Some b0 → is_byte b0 →
  is_Some (parseFloatReadResponse cb d (frame_mem f))
  ↔ 4 <= b0 <= 64 ∨ wrap8 (b0 - 4) mod 4 ≠ 0.
Proof.
  intros Hlen H0 Hb. unfold is_byte in Hb.
  destruct (lookup_frame f 64 3 Hlen) as [base H3]; [lia|].
  destruct (Z.eq_dec (wrap8 (b0 - 4) mod 4) 0) as [Hmod|Hmod].
  2:{ rewrite (parseFloatReadResponse_stops cb d f b0) by done.
      split; [by right | done]. }
  split.
  - intros Hsome. left.
    destruct (Z_lt_le_dec b0 4) as [Hlt|Hge].
    + exfalso. revert Hsome. unfold parseFloatReadResponse.
      rewrite (load_frame_Some f 0 b0), (load_frame_Some f 3 base) by done.
      cbn [mbind option_bind]. rewrite Hmod. cbn [Z.eqb negb].
      rewrite wrap8_sub4_lt in * by lia.
      rewrite floatReadLoop_overrun; [by intros [? ?] | lia | |].
      * apply Nat2Z.inj_lt. rewrite Z2Nat.id by (apply Z.div_pos; lia).
        Z.div_mod_to_equations. lia.
      * rewrite Z2Nat.id by (apply Z.div_pos; lia). rewrite Hlen.
        Z.div_mod_to_equations. lia.
    + destruct (Z_le_gt_dec b0 64) as [Hle|Hgt]; [lia|].
      exfalso. revert Hsome. unfold parseFloatReadResponse.
      rewrite (load_frame_Some f 0 b0), (load_frame_Some f 3 base) by done.
      cbn [mbind option_bind]. rewrite Hmod. cbn [Z.eqb negb].
      rewrite wrap8_sub4_ge in * by lia.
      rewrite floatReadLoop_overrun; [by intros [? ?] | lia | |].
      * apply Nat2Z.inj_lt. rewrite Z2Nat.id by (apply Z.div_pos; lia).
        Z.div_mod_to_equations. lia.
      * rewrite Z2Nat.id by (apply Z.div_pos; lia). rewrite Hlen.
        Z.div_mod_to_equations. lia.
  - intros [Hin|Hne]; [|done].
    rewrite wrap8_sub4_ge in Hmod by lia.
    by rewrite (parseFloatReadResponse_run d f b0 base).
Qed.

(** C10 (as stated, refuted).  The float-read parser returns before
    its loop when the data length is not a multiple of 4, so with
    [frame[0] = 65], and with [frame[0] = 3] (data length 255), no access
    leaves the frame although [frame[0]] is outside [4 .. 64]. *)
Lemma float_read_bounds_counterexample :
  let f65 := padded [65; 0x14; 0x00; 0x4A] in
  let f3 := padded [3; 0x14; 0x00; 0x4A] in
  ¬ (is_Some (parseFloatReadResponse all_callbacks MiniDSP_new (frame_mem f65))
     ↔ 4 <= 65 <= 64)
  ∧ wrap8 (3 - 4) = 255
  ∧ parseFloatReadResponse all_callbacks MiniDSP_new (frame_mem f3)
    = Some (MiniDSP_new, []).
Proof.
  split_and!; [|done|done].
  intros [H _]. assert (4 <= 65 <= 64) as [_ ?]; [|lia].
  apply H. exists (MiniDSP_new, []). by vm_compute.
Qed.

(** C10 (amended).  The data length is [frame[0] - 4] modulo 256, so it is
    [frame[0] + 252] when [frame[0] < 4], and the indices [4 .. 3 + data
    length] stay below 64 exactly when [4 <= frame[0] <= 64].  Every access of
    the byte-read parser lies inside the 64-byte frame exactly when
    [4 <= frame[0] <= 64].
    Every access of the float-read parser lies inside the frame exactly when
    [4 <= frame[0] <= 64] or the data length is not a multiple of 4 (the
    parser then returns before it reads any sample). *)
Theorem read_parsers_in_bounds (d : MiniDSP) (f : list Z) (b0 : Z) :
  length f = 64%nat → f !! 0%nat = Some b0 → is_byte b0 →
  (b0 < 4 → wrap8 (b0 - 4) = b0 + 252)
  ∧ ((∀ i, 0 <= i < wrap8 (b0 - 4) → i + 4 <= 63) ↔ 4 <= b0 <= 64)
  ∧ (is_Some (parseByteReadResponse cb d (frame_mem f)) ↔ 4 <= b0 <= 64)
  ∧ (is_Some (parseFloatReadResponse cb d (frame_mem f))
     ↔ 4 <= b0 <= 64 ∨ wrap8 (b0 - 4) mod 4 ≠ 0).
Proof.
  intros Hlen H0 Hb. split_and!.
  - intros. apply wrap8_sub4_lt. unfold is_byte in Hb. lia.
  - unfold is_byte in Hb. split.
    + intros Hall. destruct (Z_lt_le_dec b0 4) as [Hlt|Hge].
      * specialize (Hall (b0 + 251)).
        rewrite wrap8_sub4_lt in Hall by lia. lia.
      * destruct (Z_le_gt_dec b0 64) as [Hle|Hgt]; [lia|].
        specialize (Hall (b0 - 5)).
        rewrite wrap8_sub4_ge in Hall by lia. lia.
    + intros Hin i. rewrite wrap8_sub4_ge by lia. lia.
  - by apply parseByteReadResponse_defined.
  - by apply parseFloatReadResponse_defined.
Qed.

End Bounds.

Lemma read_parsers_in_bounds_witness :
  let f := padded [6; 0x05; 0xFF; 0xDA; 0x14; 0x01] in
  (6 < 4 → wrap8 (6 - 4) = 6 + 252)
  ∧ ((∀ i, 0 <= i < wrap8 (6 - 4) → i + 4 <= 63) ↔ 4 <= 6 <= 64)
  ∧ (is_Some (parseByteReadResponse all_callbacks MiniDSP_new (frame_mem f))
     ↔ 4 <= 6 <= 64)
  ∧ (is_Some (parseFloatReadResponse all_callbacks MiniDSP_new (frame_mem f))
     ↔ 4 <= 6 <= 64 ∨ wrap8 (6 - 4) mod 4 ≠ 0).
Proof.
  intros f.
  apply (read_parsers_in_bounds all_callbacks MiniDSP_new f 6);
    [reflexivity | reflexivity | unfold is_byte; lia].
Defined.

(** * The float-read parser: batched level callbacks *)

Section Levels.

Context (cb : Callbacks).

Lemma floatReadCase_withAlways (b : bool) (s : FloatLoop) (addr data : Z) :
  floatReadCase (withAlways b s) addr data
  = withAlways b (floatReadCase s addr data).
Proof. unfold floatReadCase. by repeat case_match. Qed.

Lemma floatReadRun_withAlways (b : bool) (ps : list (Z * Z)) (s : FloatLoop) :
  floatReadRun (withAlways b s) ps = withAlways b (floatReadRun s ps).
Proof.
  revert s. induction ps as [|[a x] ps IH]; intros s; [done|].
  unfold floatReadRun in *. cbn [foldl fst snd].
  by rewrite floatReadCase_withAlways, IH.
Qed.

Lemma floatReadCase_flags (s : FloatLoop) (addr data : Z) :
  newOutputLevels (floatReadCase s addr data)
  = newOutputLevels s || isOutputAddr addr
  ∧ newInputLevels (floatReadCase s addr data)
    = newInputLevels s || isInputAddr addr.
Proof.
  unfold floatReadCase, isOutputAddr, isInputAddr.
  repeat match goal with
         | |- context [?a =? ?b] => destruct (Z.eqb_spec a b); [subst|]
         end; cbn; rewrite ?orb_true_r, ?orb_false_r; try done.
  assert ((74 <=? addr) && (addr <=? 77) = false) as ->
    by (apply andb_false_iff; rewrite !Z.leb_gt; lia).
  assert ((68 <=? addr) && (addr <=? 69) = false) as ->
    by (apply andb_false_iff; rewrite !Z.leb_gt; lia).
  by rewrite !orb_false_r.
Qed.

Lemma floatReadRun_flags (ps : list (Z * Z)) (s : FloatLoop) :
  newOutputLevels (floatReadRun s ps)
  = newOutputLevels s || existsb (λ p, isOutputAddr p.1) ps
  ∧ newInputLevels (floatReadRun s ps)
    = newInputLevels s || existsb (λ p, isInputAddr p.1) ps.
Proof.
  revert s. induction ps as [|[a x] ps IH]; intros s.
  { cbn. by rewrite !orb_false_r. }
  unfold floatReadRun in *. cbn [foldl fst snd existsb].
  destruct (IH (floatReadCase s a x)) as [-> ->].
  destruct (floatReadCase_flags s a x) as [-> ->].
  by rewrite !orb_assoc.
Qed.

Lemma existsb_fmap {A B} (g : A → B) (p : B → bool) (l : list A) :
  existsb p (g <$> l) = existsb (λ x, p (g x)) l.
Proof. induction l as [|x l IH]; [done|]. cbn. by rewrite IH. Qed.

Lemma floatReadCase_lengths (s : FloatLoop) (addr data : Z) :
  length (outputLevels (dsp (floatReadCase s addr data)))
  = length (outputLevels (dsp s))
  ∧ length (inputLevels (dsp (floatReadCase s addr data)))
    = length (inputLevels (dsp s)).
Proof.
  unfold floatReadCase. repeat case_match; cbn; by rewrite ?length_insert.
Qed.

Lemma floatReadRun_lengths (ps : list (Z * Z)) (s : FloatLoop) :
  length (outputLevels (dsp (floatReadRun s ps)))
  = length (outputLevels (dsp s))
  ∧ length (inputLevels (dsp (floatReadRun s ps)))
    = length (inputLevels (dsp s)).
Proof.
  revert s. induction ps as [|[a x] ps IH]; intros s; [done|].
  unfold floatReadRun in *. cbn [foldl fst snd].
  destruct (IH (floatReadCase s a x)) as [-> ->].
  apply floatReadCase_lengths.
Qed.

Lemma floatReadCase_slot (s : FloatLoop) (addr data : Z) :
  match levelSlot addr with
  | Some (inl k) => dsp (floatReadCase s addr data) = set_inputLevel k data (dsp s)
  | Some (inr k) => dsp (floatReadCase s addr data) = set_outputLevel k data (dsp s)
  | None => floatReadCase s addr data = s
  end.
Proof.
  unfold floatReadCase, levelSlot.
  repeat match goal with
         | |- context [?a =? ?b] => destruct (a =? b); [done|]
         end.
  done.
Qed.

Lemma levelSlot_inj (a a' : Z) (sl : nat + nat) :
  levelSlot a = Some sl → levelSlot a' = Some sl → a = a'.
Proof.
  unfold levelSlot.
  repeat match goal with
         | |- context [?x =? ?y] => destruct (Z.eqb_spec x y); [subst|]
         end; congruence.
Qed.

Lemma getLevel_stored (s : FloatLoop) (addr data : Z) (sl : nat + nat) :
  levelSlot addr = Some sl → is_Some (getLevel sl (dsp s)) →
  getLevel sl (dsp (floatReadCase s addr data)) = Some data.
Proof.
  intros Hsl Hsome. pose proof (floatReadCase_slot s addr data) as Hc.
  rewrite Hsl in Hc. destruct sl as [k|k]; rewrite Hc; cbn in *;
    apply list_lookup_insert_eq; by apply lookup_lt_is_Some.
Qed.

Lemma getLevel_kept (s : FloatLoop) (addr data : Z) (sl : nat + nat) :
  levelSlot addr ≠ Some sl →
  getLevel sl (dsp (floatReadCase s addr data)) = getLevel sl (dsp s).
Proof.
  intros Hsl. pose proof (floatReadCase_slot s addr data) as Hc.
  destruct (levelSlot addr) as [[k|k]|]; rewrite Hc; [| |done];
    destruct sl as [k'|k']; cbn; try done;
    apply list_lookup_insert_ne; congruence.
Qed.

Lemma floatReadRun_kept (ps : list (Z * Z)) (s : FloatLoop) (sl : nat + nat) :
  Forall (λ p, levelSlot p.1 ≠ Some sl) ps →
  getLevel sl (dsp (floatReadRun s ps)) = getLevel sl (dsp s).
Proof.
  revert s. induction ps as [|[a x] ps IH]; intros s Hps; [done|].
  apply Forall_cons in Hps as [Ha Hps].
  unfold floatReadRun in *. cbn [foldl fst snd].
  rewrite IH by done. by apply getLevel_kept.
Qed.

Lemma getLevel_is_Some_run (ps : list (Z * Z)) (s : FloatLoop) (sl : nat + nat) :
  is_Some (getLevel sl (dsp s)) →
  is_Some (getLevel sl (dsp (floatReadRun s ps))).
Proof.
  destruct (floatReadRun_lengths ps s) as [Ho Hi].
  destruct sl as [k|k]; cbn; rewrite !lookup_lt_is_Some; lia.
Qed.

Lemma floatReadRun_last (ps1 ps2 : list (Z * Z)) (a x : Z) (s : FloatLoop)
    (sl : nat + nat) :
  levelSlot a = Some sl →
  Forall (λ p, levelSlot p.1 ≠ Some sl) ps2 →
  is_Some (getLevel sl (dsp s)) →
  getLevel sl (dsp (floatReadRun s (ps1 ++ (a, x) :: ps2))) = Some x.
Proof.
  intros Ha Hps2 Hsome. unfold floatReadRun.
  rewrite foldl_app. cbn [foldl fst snd].
  fold (floatReadRun s ps1).
  fold (floatReadRun (floatReadCase (floatReadRun s ps1) a x) ps2).
  rewrite floatReadRun_kept by done.
  apply getLevel_stored; [done|]. by apply getLevel_is_Some_run.
Qed.

Lemma wrap8_add_inj (base i j : Z) :
  0 <= i < 256 → 0 <= j < 256 →
  wrap8 (base + i) = wrap8 (base + j) → i = j.
Proof. unfold wrap8. intros Hi Hj Heq. Z.div_mod_to_equations. lia. Qed.

Lemma seqZ_split (n i : Z) :
  0 <= i < n → seqZ 0 n = seqZ 0 i ++ i :: seqZ (i + 1) (n - i - 1).
Proof.
  intros Hi. replace n with (i + (n - i)) at 1 by lia.
  rewrite seqZ_app by lia. f_equal. rewrite seqZ_cons by lia.
  replace (0 + i) with i by lia.
  replace (Z.succ i) with (i + 1) by lia.
  by replace (Z.pred (n - i)) with (n - i - 1) by lia.
Qed.

Lemma floatReadSamples_stored (f : list Z) (base n i : Z) (s : FloatLoop)
    (sl : nat + nat) :
  0 <= i < n → n <= 256 →
  levelSlot (wrap8 (base + i)) = Some sl →
  is_Some (getLevel sl (dsp s)) →
  getLevel sl (dsp (floatReadRun s (floatReadSamples f base n)))
  = Some (frame_word f (4 + Z.shiftl i 2)).
Proof.
  intros Hi Hn Hsl Hsome. unfold floatReadSamples.
  rewrite (seqZ_split n i) by done. rewrite fmap_app, fmap_cons.
  unfold floatReadSample at 2.
  apply floatReadRun_last; [done| |done].
  apply Forall_fmap, Forall_forall. intros j Hj%elem_of_seqZ. cbn.
  intros Hslj.
  pose proof (levelSlot_inj _ _ _ Hsl Hslj) as Heq.
  apply wrap8_add_inj in Heq; lia.
Qed.

Lemma levelCalls_withAlways (b : bool) (s : FloatLoop) :
  levelCalls cb (withAlways b s) = levelCalls cb s.
Proof. done. Qed.

Lemma levelSlot_is_Some (d : MiniDSP) (addr : Z) (sl : nat + nat) :
  length (outputLevels d) = 4%nat → length (inputLevels d) = 2%nat →
  levelSlot addr = Some sl → is_Some (getLevel sl d).
Proof.
  intros Ho Hi. unfold levelSlot.
  repeat match goal with
         | |- context [?a =? ?b] => destruct (a =? b)
         end; intros [= <-]; cbn; apply lookup_lt_is_Some; lia.
Qed.

(** C6.  A well-formed float-read frame ([4 <= frame[0] <= 64], data length a
    multiple of 4) makes at most one call of the output-levels callback
    followed by at most one call of the input-levels callback.  Each call
    carries the whole array of the final state, in which every sample of the
    frame is stored (4 and 2 elements).  An attached callback is called
    exactly when an address of its group ([0x4A .. 0x4D], [0x44 .. 0x45]) is
    among the addresses of the frame, whatever the notification mode. *)
Theorem parseFloatReadResponse_batched (d : MiniDSP) (f : list Z)
    (b0 base : Z) :
  length f = 64%nat → f !! 0%nat = Some b0 → f !! 3%nat = Some base →
  4 <= b0 <= 64 → (b0 - 4) mod 4 = 0 →
  length (outputLevels d) = 4%nat → length (inputLevels d) = 2%nat →
  let n := (b0 - 4) / 4 in
  ∃ d',
    let calls :=
      (if pFuncOnNewOutputLevels cb && groupPresent isOutputAddr base n
       then [OnNewOutputLevels (outputLevels d')] else [])
      ++ (if pFuncOnNewInputLevels cb && groupPresent isInputAddr base n
          then [OnNewInputLevels (inputLevels d')] else []) in
    parseFloatReadResponse cb d (frame_mem f) = Some (d', calls)
    ∧ (∀ always,
         parseFloatReadResponse cb (set_callbackAlways always d) (frame_mem f)
         = Some (set_callbackAlways always d', calls))
    ∧ length (outputLevels d') = 4%nat
    ∧ length (inputLevels d') = 2%nat
    ∧ (∀ i sl, 0 <= i < n → levelSlot (wrap8 (base + i)) = Some sl →
         getLevel sl d' = Some (frame_word f (4 + 4 * i))).
Proof.
  intros Hlen H0 H3 Hb Hmod Ho Hi n.
  set (s0 := {| dsp := d; newOutputLevels := false; newInputLevels := false |}).
  set (s := floatReadRun s0 (floatReadSamples f base n)).
  assert (Hn : 0 <= n <= 15) by (unfold n; Z.div_mod_to_equations; lia).
  assert (Hcalls : levelCalls cb s
    = (if pFuncOnNewOutputLevels cb && groupPresent isOutputAddr base n
       then [OnNewOutputLevels (outputLevels (dsp s))] else [])
      ++ (if pFuncOnNewInputLevels cb && groupPresent isInputAddr base n
          then [OnNewInputLevels (inputLevels (dsp s))] else [])).
  { unfold levelCalls, s.
    destruct (floatReadRun_flags (floatReadSamples f base n) s0) as [-> ->].
    unfold floatReadSamples, groupPresent. by rewrite !existsb_fmap. }
  exists (dsp s). cbv zeta. rewrite <-Hcalls. split_and!.
  - by apply parseFloatReadResponse_run.
  - intros always.
    rewrite (parseFloatReadResponse_run cb _ f b0 base) by done.
    change {| dsp := set_callbackAlways always d; newOutputLevels := false;
              newInputLevels := false |} with (withAlways always s0).
    fold n. rewrite floatReadRun_withAlways. fold s. done.
  - unfold s. by destruct (floatReadRun_lengths (floatReadSamples f base n) s0)
      as [-> _].
  - unfold s. by destruct (floatReadRun_lengths (floatReadSamples f base n) s0)
      as [_ ->].
  - intros i sl Hin Hsl. unfold s.
    rewrite (floatReadSamples_stored f base n i s0 sl); [|lia|lia|done|].
    + by rewrite Z.shiftl_mul_pow2, Z.mul_comm by lia.
    + by apply (levelSlot_is_Some d (wrap8 (base + i))).
Qed.

End Levels.

Lemma parseFloatReadResponse_batched_witness :
  let f := padded [8; 0x14; 0x00; 0x4A; 0x00; 0x00; 0x20; 0x41] in
  ∃ d',
    let calls :=
      (if pFuncOnNewOutputLevels all_callbacks
          && groupPresent isOutputAddr 0x4A ((8 - 4) / 4)
       then [OnNewOutputLevels (outputLevels d')] else [])
      ++ (if pFuncOnNewInputLevels all_callbacks
             && groupPresent isInputAddr 0x4A ((8 - 4) / 4)
          then [OnNewInputLevels (inputLevels d')] else []) in
    parseFloatReadResponse all_callbacks MiniDSP_new (frame_mem f)
    = Some (d', calls)
    ∧ (∀ always,
         parseFloatReadResponse all_callbacks
           (set_callbackAlways always MiniDSP_new) (frame_mem f)
         = Some (set_callbackAlways always d', calls))
    ∧ length (outputLevels d') = 4%nat
    ∧ length (inputLevels d') = 2%nat
    ∧ (∀ i sl, 0 <= i < (8 - 4) / 4 → levelSlot (wrap8 (0x4A + i)) = Some sl →
         getLevel sl d' = Some (frame_word f (4 + 4 * i))).
Proof.
  intros f.
  apply (parseFloatReadResponse_batched all_callbacks MiniDSP_new f 8 0x4A);
    [reflexivity | reflexivity | reflexivity | lia | reflexivity
    | reflexivity | reflexivity].
Defined.

(** The float decode example: the word of 10.0 at address [0x4A]. *)
Example float_decode_10 :
  parseFloatReadResponse all_callbacks MiniDSP_new
    (frame_mem (padded [8; 0x14; 0x00; 0x4A; 0x00; 0x00; 0x20; 0x41]))
  = Some ({| preset := 4; source := 3; volume := 0x100; muted := 2;
             callbackAlways := true;
             outputLevels := [0x41200000; 0; 0; 0]; inputLevels := [0; 0] |},
          [OnNewOutputLevels [0x41200000; 0; 0; 0]]).
Proof. by vm_compute. Qed.

(** * The byte-read run: fields, calls, repetition *)

Section ByteRun.

Context (cb : Callbacks).

Lemma byteReadRun_app (d : MiniDSP) (ps1 ps2 : list (Z * Z)) :
  byteReadRun cb d (ps1 ++ ps2)
  = let '(d1, ev1) := byteReadRun cb d ps1 in
    let '(d2, ev2) := byteReadRun cb d1 ps2 in
    (d2, ev1 ++ ev2).
Proof.
  revert d. induction ps1 as [|[a x] ps1 IH]; intros d.
  { cbn. by destruct (byteReadRun cb d ps2). }
  cbn [app byteReadRun]. destruct (byteReadCase cb d a x) as [d1 ev1].
  rewrite IH. destruct (byteReadRun cb d1 ps1) as [d2 ev2].
  destruct (byteReadRun cb d2 ps2) as [d3 ev3]. by rewrite app_assoc.
Qed.

Lemma wrap8_byte (v : Z) : is_byte v → wrap8 v = v.
Proof. intros Hv. apply Z.mod_small. apply Hv. Qed.

(** The first update of a field that still holds its initial value. *)

Lemma updateVolume_first (d : MiniDSP) (v : Z) :
  volume d = volume MiniDSP_new → 0 <= v <= 255 →
  updateVolume cb d v
  = (set_volume v d, if pFuncOnVolumeChange cb then [OnVolumeChange v] else []).
Proof.
  intros Hd Hv. unfold updateVolume. rewrite Hd. cbn [volume MiniDSP_new set_volume].
  destruct (Z.eqb_spec v 256); [lia|].
  rewrite orb_true_r, wrap8_byte by (unfold is_byte; lia). done.
Qed.

Lemma updateSource_first (d : MiniDSP) (v : Z) :
  source d = source MiniDSP_new → 0 <= v <= 2 →
  updateSource cb d v
  = (set_source v d, if pFuncOnSourceChange cb then [OnSourceChange v] else []).
Proof.
  intros Hd Hv. unfold updateSource. rewrite Hd. cbn [source MiniDSP_new set_source].
  destruct (Z.eqb_spec v 3); [lia|]. by rewrite orb_true_r.
Qed.

Lemma updateMuted_first (d : MiniDSP) (v : Z) :
  muted d = muted MiniDSP_new → 0 <= v <= 1 →
  updateMuted cb d v
  = (set_muted v d,
     if pFuncOnMutedChange cb then [OnMutedChange (negb (v =? 0))] else []).
Proof.
  intros Hd Hv. unfold updateMuted. rewrite Hd. cbn [muted MiniDSP_new set_muted].
  destruct (Z.eqb_spec v 2); [lia|]. by rewrite orb_true_r.
Qed.

(** Addresses other than [0xDA] leave [volume] and its callback alone. *)

Lemma byteReadCase_other_volume (d : MiniDSP) (addr data : Z) :
  addr ≠ 0xDA →
  volume (byteReadCase cb d addr data).1 = volume d
  ∧ volumeCalls (byteReadCase cb d addr data).2 = [].
Proof.
  intros Ha. unfold byteReadCase, updateSource, updateMuted.
  destruct (Z.eqb_spec addr 0xDA); [done|].
  repeat case_match; done.
Qed.

Lemma byteReadRun_other_volume (d : MiniDSP) (ps : list (Z * Z)) :
  Forall (λ p, p.1 ≠ 0xDA) ps →
  volume (byteReadRun cb d ps).1 = volume d
  ∧ volumeCalls (byteReadRun cb d ps).2 = [].
Proof.
  revert d. induction ps as [|[a x] ps IH]; intros d Hps; [done|].
  apply Forall_cons in Hps as [Ha Hps]. cbn [byteReadRun].
  destruct (byteReadCase_other_volume d a x Ha) as [Hv Hc].
  destruct (byteReadCase cb d a x) as [d1 ev1].
  destruct (IH d1 Hps) as [Hv' Hc'].
  destruct (byteReadRun cb d1 ps) as [d2 ev2]. cbn [fst snd] in *.
  split; [congruence|]. unfold volumeCalls in *. by rewrite omap_app, Hc, Hc'.
Qed.

Lemma frame_byte_is_byte (f : list Z) (i : Z) :
  Forall is_byte f → is_byte (frame_byte f i).
Proof.
  intros Hf. unfold frame_byte.
  destruct (f !! Z.to_nat i) as [b|] eqn:Hb; [|unfold is_byte; cbn; lia].
  by apply (Forall_lookup_1 _ _ _ _ Hf Hb).
Qed.

Lemma byteReadPairs_split (f : list Z) (base n i : Z) :
  0 <= i < n →
  byteReadPairs f base n
  = (byteReadPair f base <$> seqZ 0 i)
    ++ byteReadPair f base i
    :: (byteReadPair f base <$> seqZ (i + 1) (n - i - 1)).
Proof.
  intros Hi. unfold byteReadPairs.
  by rewrite (seqZ_split n i), fmap_app, fmap_cons.
Qed.

Lemma byteReadPairs_other (f : list Z) (base m len i a : Z) :
  0 <= m → m + len <= 256 → 0 <= i < 256 → wrap8 (base + i) = a →
  ¬ (m <= i < m + len) →
  Forall (λ p, p.1 ≠ a) (byteReadPair f base <$> seqZ m len).
Proof.
  intros Hm Hlen Hi Ha Hout.
  apply Forall_fmap, Forall_forall. intros j Hj%elem_of_seqZ. cbn.
  intros Heq. rewrite <-Ha in Heq. apply wrap8_add_inj in Heq; lia.
Qed.

(** The first byte-read frame that carries address [0xDA]. *)
Lemma parseByteReadResponse_first_volume (d : MiniDSP) (f : list Z)
    (b0 base i : Z) :
  volume d = volume MiniDSP_new →
  length f = 64%nat → Forall is_byte f →
  f !! 0%nat = Some b0 → f !! 3%nat = Some base →
  4 <= b0 <= 64 → 0 <= i < b0 - 4 → wrap8 (base + i) = 0xDA →
  ∃ d' ev,
    parseByteReadResponse cb d (frame_mem f) = Some (d', ev)
    ∧ volume d' = frame_byte f (i + 4)
    ∧ volumeCalls ev
      = if pFuncOnVolumeChange cb then [frame_byte f (i + 4)] else [].
Proof.
  intros Hd Hlen Hf H0 H3 Hb Hi Ha.
  rewrite (parseByteReadResponse_run cb d f b0 base) by done.
  rewrite (byteReadPairs_split f base (b0 - 4) i) by done.
  rewrite byteReadRun_app.
  pose proof (byteReadRun_other_volume d (byteReadPair f base <$> seqZ 0 i))
    as H1.
  destruct (byteReadRun cb d _) as [d1 ev1]. cbn [fst snd] in H1.
  destruct H1 as [Hv1 Hc1].
  { apply (byteReadPairs_other f base 0 i i); [lia..|done|lia]. }
  cbn [byteReadRun]. unfold byteReadPair at 1. rewrite Ha.
  unfold byteReadCase. cbn [Z.eqb Pos.eqb orb].
  pose proof (frame_byte_is_byte f (i + 4) Hf) as Hbyte. unfold is_byte in Hbyte.
  rewrite updateVolume_first by (try congruence; lia).
  pose proof (byteReadRun_other_volume (set_volume (frame_byte f (i + 4)) d1)
                (byteReadPair f base <$> seqZ (i + 1) (b0 - 4 - i - 1))) as H2.
  destruct (byteReadRun cb (set_volume _ d1) _) as [d2 ev2]. cbn [fst snd] in H2.
  destruct H2 as [Hv2 Hc2].
  { apply (byteReadPairs_other f base (i + 1) _ i); [lia..|done|lia]. }
  eexists _, _. split; [done|]. split; [done|].
  unfold volumeCalls in *. rewrite !omap_app, Hc1, Hc2.
  by destruct (pFuncOnVolumeChange cb).
Qed.

(** ** Processing a frame twice *)

Lemma set_field_same (d : MiniDSP) :
  set_preset (preset d) d = d ∧ set_source (source d) d = d
  ∧ set_volume (volume d) d = d ∧ set_muted (muted d) d = d.
Proof. by destruct d. Qed.

Lemma update_quiet (d : MiniDSP) :
  callbackAlways d = false →
  updateSource cb d (source d) = (d, [])
  ∧ updateVolume cb d (volume d) = (d, [])
  ∧ updateMuted cb d (muted d) = (d, []).
Proof.
  intros Hmode. destruct (set_field_same d) as (_ & Hs & Hv & Hm).
  unfold updateSource, updateVolume, updateMuted.
  rewrite Hs, Hv, Hm, !Z.eqb_refl, Hmode. done.
Qed.

Lemma update_always (d : MiniDSP) (v : Z) :
  callbackAlways d = true →
  (updateSource cb d v).2
  = (if pFuncOnSourceChange cb then [OnSourceChange v] else [])
  ∧ (updateVolume cb d v).2
    = (if pFuncOnVolumeChange cb then [OnVolumeChange (wrap8 v)] else [])
  ∧ (updateMuted cb d v).2
    = (if pFuncOnMutedChange cb then [OnMutedChange (negb (v =? 0))] else []).
Proof.
  intros Hmode. unfold updateSource, updateVolume, updateMuted. cbn.
  by rewrite Hmode.
Qed.

Lemma byteReadCase_quiet (d : MiniDSP) (addr data : Z) :
  callbackAlways d = false →
  (∀ fl, fieldOf addr = Some fl → getField fl d = data) →
  byteReadCase cb d addr data = (d, []).
Proof.
  intros Hmode Hfl. unfold byteReadCase. unfold fieldOf in Hfl.
  destruct (set_field_same d) as (Hp & _).
  destruct (update_quiet d Hmode) as (Hs & Hv & Hm).
  destruct (addr =? 0xD8).
  { rewrite <-(Hfl FPreset eq_refl). cbn. by rewrite Hp. }
  destruct ((addr =? 0xA9) || (addr =? 0xD9)).
  { by rewrite <-(Hfl FSource eq_refl). }
  destruct (addr =? 0xDA).
  { by rewrite <-(Hfl FVolume eq_refl). }
  destruct (addr =? 0xDB).
  { by rewrite <-(Hfl FMuted eq_refl). }
  done.
Qed.

Lemma byteReadCase_mode (d : MiniDSP) (addr data : Z) :
  callbackAlways (byteReadCase cb d addr data).1 = callbackAlways d.
Proof.
  unfold byteReadCase, updateSource, updateVolume, updateMuted.
  by repeat case_match.
Qed.

Lemma byteReadCase_always (d : MiniDSP) (addr data : Z) :
  callbackAlways d = true →
  (byteReadCase cb d addr data).2 = alwaysCalls cb (addr, data).
Proof.
  intros Hmode. destruct (update_always d data Hmode) as (Hs & Hv & Hm).
  unfold byteReadCase, alwaysCalls, fieldOf. cbn [fst snd].
  destruct (addr =? 0xD8); [done|].
  destruct ((addr =? 0xA9) || (addr =? 0xD9)); [done|].
  destruct (addr =? 0xDA); [done|].
  by destruct (addr =? 0xDB).
Qed.

Lemma byteReadCase_field (d : MiniDSP) (addr data : Z) (fl : Field) :
  (fieldOf addr = Some fl → getField fl (byteReadCase cb d addr data).1 = data)
  ∧ (fieldOf addr ≠ Some fl →
     getField fl (byteReadCase cb d addr data).1 = getField fl d).
Proof.
  unfold byteReadCase, fieldOf, updateSource, updateVolume, updateMuted.
  destruct (addr =? 0xD8); [by destruct fl|].
  destruct ((addr =? 0xA9) || (addr =? 0xD9)); [by destruct fl|].
  destruct (addr =? 0xDA); [by destruct fl|].
  destruct (addr =? 0xDB); by destruct fl.
Qed.

Lemma byteReadRun_mode (d : MiniDSP) (ps : list (Z * Z)) :
  callbackAlways (byteReadRun cb d ps).1 = callbackAlways d.
Proof.
  revert d. induction ps as [|[a x] ps IH]; intros d; [done|].
  cbn [byteReadRun]. pose proof (byteReadCase_mode d a x) as Hc.
  destruct (byteReadCase cb d a x) as [d1 ev1]. specialize (IH d1).
  destruct (byteReadRun cb d1 ps) as [d2 ev2]. cbn in *. congruence.
Qed.

Lemma byteReadRun_always (d : MiniDSP) (ps : list (Z * Z)) :
  callbackAlways d = true →
  (byteReadRun cb d ps).2 = flat_map (alwaysCalls cb) ps.
Proof.
  revert d. induction ps as [|[a x] ps IH]; intros d Hmode; [done|].
  cbn [byteReadRun flat_map].
  pose proof (byteReadCase_always d a x Hmode) as Hc.
  pose proof (byteReadCase_mode d a x) as Hm.
  destruct (byteReadCase cb d a x) as [d1 ev1]. cbn [fst snd] in *.
  specialize (IH d1). destruct (byteReadRun cb d1 ps) as [d2 ev2].
  cbn [fst snd] in *. rewrite Hc, IH; [done | congruence].
Qed.

(** A field ends a run with the value it had or with one the run carries. *)
Lemma byteReadRun_field (d : MiniDSP) (ps : list (Z * Z)) (fl : Field) :
  getField fl (byteReadRun cb d ps).1 = getField fl d
  ∨ ∃ a x, (a, x) ∈ ps ∧ fieldOf a = Some fl
           ∧ getField fl (byteReadRun cb d ps).1 = x.
Proof.
  revert d. induction ps as [|[a x] ps IH]; intros d; [by left|].
  cbn [byteReadRun]. destruct (byteReadCase_field d a x fl) as [Hset Hkeep].
  destruct (byteReadCase cb d a x) as [d1 ev1]. specialize (IH d1).
  destruct (byteReadRun cb d1 ps) as [d2 ev2]. cbn [fst snd] in *.
  destruct IH as [IH|(a' & x' & Hin & Hfl & Hx)].
  - destruct (decide (fieldOf a = Some fl)) as [Hfl|Hfl].
    + right. exists a, x. split_and!; [by left | done |].
      rewrite IH. by apply Hset.
    + left. rewrite IH. by apply Hkeep.
  - right. exists a', x'. split_and!; [by right | done | done].
Qed.

Lemma byteReadRun_agrees (d : MiniDSP) (ps : list (Z * Z)) :
  consistentPairs ps →
  ∀ a x fl, (a, x) ∈ ps → fieldOf a = Some fl →
            getField fl (byteReadRun cb d ps).1 = x.
Proof.
  revert d. induction ps as [|[a0 x0] ps IH]; intros d Hcons a x fl Hin Hfl.
  { by apply elem_of_nil in Hin. }
  cbn [byteReadRun].
  destruct (byteReadCase_field d a0 x0 fl) as [Hset _].
  destruct (byteReadCase cb d a0 x0) as [d1 ev1].
  pose proof (byteReadRun_field d1 ps fl) as Hend.
  assert (Hcons' : consistentPairs ps).
  { intros b y b' y' fl' Hb Hb'. apply (Hcons b y b' y' fl'); by right. }
  specialize (IH d1 Hcons').
  destruct (byteReadRun cb d1 ps) as [d2 ev2]. cbn [fst snd] in *.
  apply elem_of_cons in Hin as [[= -> ->]|Hin]; [|by apply (IH a x)].
  destruct Hend as [->|(a' & x' & Hin' & Hfl' & ->)]; [by apply Hset|].
  apply (Hcons a' x' a0 x0 fl); [by right | by left | done | done].
Qed.

Lemma byteReadRun_quiet (d : MiniDSP) (ps : list (Z * Z)) :
  callbackAlways d = false →
  (∀ a x fl, (a, x) ∈ ps → fieldOf a = Some fl → getField fl d = x) →
  byteReadRun cb d ps = (d, []).
Proof.
  induction ps as [|[a x] ps IH]; intros Hmode Hag; [done|].
  cbn [byteReadRun]. rewrite byteReadCase_quiet; [|done|].
  2:{ intros fl Hfl. apply (Hag a x fl); [by left | done]. }
  rewrite IH; [done | done |].
  intros a' x' fl Hin Hfl. apply (Hag a' x' fl); [by right | done].
Qed.

(** A run that met no conflicting values makes no call when repeated in
    on-change mode. *)
Lemma byteReadRun_twice_quiet (d : MiniDSP) (ps : list (Z * Z)) :
  callbackAlways d = false → consistentPairs ps →
  byteReadRun cb (byteReadRun cb d ps).1 ps = ((byteReadRun cb d ps).1, []).
Proof.
  intros Hmode Hcons. apply byteReadRun_quiet.
  - by rewrite byteReadRun_mode.
  - by apply byteReadRun_agrees.
Qed.

Lemma fieldOf_same (a a' : Z) (fl : Field) :
  fieldOf a = Some fl → fieldOf a' = Some fl →
  a = a' ∨ (a = 0xA9 ∧ a' = 0xD9) ∨ (a = 0xD9 ∧ a' = 0xA9).
Proof.
  unfold fieldOf.
  repeat match goal with
         | |- context [?x =? ?y] => destruct (Z.eqb_spec x y); [subst|]
         end; cbn; intros; simplify_eq; auto.
Qed.

Lemma byteReadPairs_consistent (f : list Z) (b0 base : Z) :
  f !! 0%nat = Some b0 → f !! 3%nat = Some base → 4 <= b0 <= 64 →
  ¬ sourceConflict f →
  consistentPairs (byteReadPairs f base (b0 - 4)).
Proof.
  intros H0 H3 Hb Hnc a x a' x' fl Hin Hin' Hfl Hfl'.
  unfold byteReadPairs in *.
  apply list_elem_of_fmap in Hin as (i & [= -> ->] & Hi%elem_of_seqZ).
  apply list_elem_of_fmap in Hin' as (j & [= -> ->] & Hj%elem_of_seqZ).
  destruct (decide (frame_byte f (i + 4) = frame_byte f (j + 4)))
    as [|Hne]; [done|].
  exfalso.
  destruct (fieldOf_same _ _ _ Hfl Hfl') as [Heq|[[Ha Ha']|[Ha Ha']]].
  - apply wrap8_add_inj in Heq; [|lia|lia]. by subst.
  - apply Hnc. exists b0, base, i, j.
    rewrite wrap8_sub4_ge by lia. split_and!; try done; lia.
  - apply Hnc. exists b0, base, j, i.
    rewrite wrap8_sub4_ge by lia. split_and!; try done; lia.
Qed.

End ByteRun.

(** * Processing a float-read frame twice *)

Section FloatTwice.

Context (cb : Callbacks).

Lemma MiniDSP_eq (d d' : MiniDSP) :
  preset d = preset d' → source d = source d' → volume d = volume d' →
  muted d = muted d' → callbackAlways d = callbackAlways d' →
  outputLevels d = outputLevels d' → inputLevels d = inputLevels d' →
  d = d'.
Proof. destruct d, d'. cbn. by intros -> -> -> -> -> -> ->. Qed.

Lemma floatReadCase_scalars (s : FloatLoop) (addr data : Z) :
  let d' := dsp (floatReadCase s addr data) in
  preset d' = preset (dsp s) ∧ source d' = source (dsp s)
  ∧ volume d' = volume (dsp s) ∧ muted d' = muted (dsp s)
  ∧ callbackAlways d' = callbackAlways (dsp s).
Proof. unfold floatReadCase. by repeat case_match. Qed.

Lemma floatReadRun_scalars (ps : list (Z * Z)) (s : FloatLoop) :
  let d' := dsp (floatReadRun s ps) in
  preset d' = preset (dsp s) ∧ source d' = source (dsp s)
  ∧ volume d' = volume (dsp s) ∧ muted d' = muted (dsp s)
  ∧ callbackAlways d' = callbackAlways (dsp s).
Proof.
  revert s. induction ps as [|[a x] ps IH]; intros s; [done|].
  unfold floatReadRun in *. cbn [foldl fst snd].
  destruct (IH (floatReadCase s a x)) as (-> & -> & -> & -> & ->).
  apply floatReadCase_scalars.
Qed.

(** Either no sample of the list goes to the slot, or there is a last one. *)
Lemma last_sample (ps : list (Z * Z)) (sl : nat + nat) :
  Forall (λ p, levelSlot p.1 ≠ Some sl) ps
  ∨ ∃ ps1 a x ps2,
      ps = ps1 ++ (a, x) :: ps2 ∧ levelSlot a = Some sl
      ∧ Forall (λ p, levelSlot p.1 ≠ Some sl) ps2.
Proof.
  induction ps as [|[a x] ps IH]; [by left|].
  destruct IH as [Hall|(ps1 & a' & x' & ps2 & -> & Hsl & Hps2)].
  - destruct (decide (levelSlot a = Some sl)) as [Ha|Ha].
    + right. by exists [], a, x, ps.
    + left. by constructor.
  - right. by exists ((a, x) :: ps1), a', x', ps2.
Qed.

Lemma floatReadRun_level_twice (ps : list (Z * Z)) (s s' : FloatLoop)
    (sl : nat + nat) :
  dsp s' = dsp (floatReadRun s ps) →
  getLevel sl (dsp (floatReadRun s' ps)) = getLevel sl (dsp (floatReadRun s ps)).
Proof.
  intros Hs'.
  destruct (last_sample ps sl) as [Hall|(ps1 & a & x & ps2 & -> & Hsl & Hps2)].
  { by rewrite (floatReadRun_kept ps s'), Hs'. }
  destruct (decide (is_Some (getLevel sl (dsp s)))) as [Hsome|Hnone].
  - rewrite !floatReadRun_last; try done.
    rewrite Hs'. by apply getLevel_is_Some_run.
  - assert (Hnone_run : ∀ t qs,
      ¬ is_Some (getLevel sl (dsp t)) →
      getLevel sl (dsp (floatReadRun t qs)) = None).
    { intros t qs Ht. apply eq_None_not_Some. intros Hq. apply Ht.
      destruct (floatReadRun_lengths qs t) as [Ho Hi].
      destruct sl as [k|k]; cbn in *; rewrite lookup_lt_is_Some in *; lia. }
    rewrite (Hnone_run s) by done. apply Hnone_run.
    rewrite Hs', (Hnone_run s) by done. by intros [? ?].
Qed.

Lemma floatReadRun_twice (ps : list (Z * Z)) (d : MiniDSP) :
  let s0 d := {| dsp := d; newOutputLevels := false; newInputLevels := false |} in
  let s := floatReadRun (s0 d) ps in
  floatReadRun (s0 (dsp s)) ps = s.
Proof.
  intros s0 s.
  assert (Hdsp : dsp (floatReadRun (s0 (dsp s)) ps) = dsp s).
  { destruct (floatReadRun_scalars ps (s0 (dsp s))) as (Hp & Hs & Hv & Hm & Hc).
    apply MiniDSP_eq; try done.
    - apply list_eq. intros k.
      apply (floatReadRun_level_twice ps (s0 d) (s0 (dsp s)) (inr k)). done.
    - apply list_eq. intros k.
      apply (floatReadRun_level_twice ps (s0 d) (s0 (dsp s)) (inl k)). done. }
  destruct (floatReadRun_flags ps (s0 (dsp s))) as [Ho Hi].
  destruct (floatReadRun_flags ps (s0 d)) as [Ho' Hi'].
  fold s in Ho', Hi'.
  destruct (floatReadRun (s0 (dsp s)) ps) as [d2 o2 i2], s as [d1 o1 i1].
  cbn in *. congruence.
Qed.

(** A float-read frame makes the same calls and leaves the same state when
    it is processed again, in either mode. *)
Lemma parseFloatReadResponse_twice (d : MiniDSP) (f : list Z) (b0 : Z) :
  length f = 64%nat → f !! 0%nat = Some b0 → 4 <= b0 <= 64 →
  ∃ d1 ev1,
    parseFloatReadResponse cb d (frame_mem f) = Some (d1, ev1)
    ∧ parseFloatReadResponse cb d1 (frame_mem f) = Some (d1, ev1).
Proof.
  intros Hlen H0 Hb.
  destruct (lookup_frame f 64 3 Hlen) as [base H3]; [lia|].
  destruct (Z.eq_dec ((b0 - 4) mod 4) 0) as [Hmod|Hmod].
  - set (s := floatReadRun
                {| dsp := d; newOutputLevels := false; newInputLevels := false |}
                (floatReadSamples f base ((b0 - 4) / 4))).
    exists (dsp s), (levelCalls cb s). split.
    + by apply parseFloatReadResponse_run.
    + rewrite (parseFloatReadResponse_run cb (dsp s) f b0 base) by done.
      unfold s. by rewrite floatReadRun_twice.
  - exists d, [].
    rewrite !(parseFloatReadResponse_stops cb d f b0); try done;
      by rewrite wrap8_sub4_ge by lia.
Qed.

End FloatTwice.

(** * Notification policy *)

Section Policy.

Context (cb : Callbacks).

Lemma parseDirectSetResponse_frame (d : MiniDSP) (f : list Z) (opcode data : Z) :
  f !! 1%nat = Some opcode → f !! 2%nat = Some data →
  parseDirectSetResponse cb d (frame_mem f)
  = Some (if opcode =? 0x42 then updateVolume cb d data
          else if opcode =? 0x17 then updateMuted cb d data
          else if opcode =? 0x34 then updateSource cb d data
          else (d, [])).
Proof.
  intros H1 H2. unfold parseDirectSetResponse.
  by rewrite (load_frame_Some f 2 data), (load_frame_Some f 1 opcode).
Qed.

Lemma parseDirectSetResponse_twice (d : MiniDSP) (f : list Z) (opcode data : Z) :
  f !! 1%nat = Some opcode → f !! 2%nat = Some data →
  ∃ d1 ev1,
    parseDirectSetResponse cb d (frame_mem f) = Some (d1, ev1)
    ∧ (callbackAlways d = false →
       ev1 = match directSetField opcode with
             | Some fl => if data =? getField fl d then []
                          else directSetCalls cb opcode data
             | None => []
             end
       ∧ parseDirectSetResponse cb d1 (frame_mem f) = Some (d1, []))
    ∧ (callbackAlways d = true →
       ev1 = directSetCalls cb opcode data
       ∧ parseDirectSetResponse cb d1 (frame_mem f) = Some (d1, ev1)).
Proof.
  intros H1 H2.
  rewrite (parseDirectSetResponse_frame d f opcode data) by done.
  unfold directSetCalls, directSetField.
  destruct (opcode =? 0x42) eqn:E42;
    [|destruct (opcode =? 0x17) eqn:E17; [|destruct (opcode =? 0x34) eqn:E34]].
  all: eexists _, _; split; [done|];
    rewrite (parseDirectSetResponse_frame _ f opcode data) by done;
    rewrite ?E42, ?E17, ?E34;
    unfold updateVolume, updateMuted, updateSource;
    cbn [getField set_volume set_muted set_source volume muted source
         callbackAlways fst snd];
    rewrite ?Z.eqb_refl; split; intros Hmode; rewrite ?Hmode;
    cbn [orb andb negb]; try done.
  - by destruct (data =? volume d), (pFuncOnVolumeChange cb).
  - by destruct (data =? muted d), (pFuncOnMutedChange cb).
  - by destruct (data =? source d), (pFuncOnSourceChange cb).
Qed.

(** ** The calls of the first pass in on-change mode *)

Lemma byteReadCase_calls (d : MiniDSP) (a x : Z) :
  (byteReadCase cb d a x).2 = []
  ∨ (byteReadCase cb d a x).2 = alwaysCalls cb (a, x).
Proof.
  unfold byteReadCase, alwaysCalls, fieldOf, updateSource, updateVolume,
    updateMuted. cbn [fst snd].
  destruct (a =? 0xD8); [by left|].
  destruct ((a =? 0xA9) || (a =? 0xD9)).
  { cbn. destruct (callbackAlways d || negb (x =? source d)),
      (pFuncOnSourceChange cb); auto. }
  destruct (a =? 0xDA).
  { cbn. destruct (callbackAlways d || negb (x =? volume d)),
      (pFuncOnVolumeChange cb); auto. }
  destruct (a =? 0xDB); [|by left].
  cbn. destruct (callbackAlways d || negb (x =? muted d)),
    (pFuncOnMutedChange cb); auto.
Qed.

Lemma byteReadCase_on_change (d : MiniDSP) (a x : Z) (fl : Field) :
  callbackAlways d = false → fieldOf a = Some fl →
  (byteReadCase cb d a x).2
  = if x =? getField fl d then [] else alwaysCalls cb (a, x).
Proof.
  intros Hmode. unfold byteReadCase, alwaysCalls, fieldOf, updateSource,
    updateVolume, updateMuted. cbn [fst snd].
  destruct (a =? 0xD8); [intros [= <-]; cbn; by destruct (x =? preset d)|].
  destruct ((a =? 0xA9) || (a =? 0xD9)).
  { intros [= <-]. cbn. rewrite Hmode.
    by destruct (x =? source d), (pFuncOnSourceChange cb). }
  destruct (a =? 0xDA).
  { intros [= <-]. cbn. rewrite Hmode.
    by destruct (x =? volume d), (pFuncOnVolumeChange cb). }
  destruct (a =? 0xDB); [|done].
  intros [= <-]. cbn. rewrite Hmode.
  by destruct (x =? muted d), (pFuncOnMutedChange cb).
Qed.

Lemma fieldCalls_alwaysCalls (a x : Z) (fl : Field) :
  fieldCalls fl (alwaysCalls cb (a, x))
  = if decide (fieldOf a = Some fl) then alwaysCalls cb (a, x) else [].
Proof.
  unfold alwaysCalls, fieldCalls. cbn [fst snd].
  destruct (fieldOf a) as [[]|], fl,
    (pFuncOnSourceChange cb), (pFuncOnVolumeChange cb),
    (pFuncOnMutedChange cb); done.
Qed.

Lemma fieldCalls_app (fl : Field) (ev1 ev2 : list Event) :
  fieldCalls fl (ev1 ++ ev2) = fieldCalls fl ev1 ++ fieldCalls fl ev2.
Proof. unfold fieldCalls. apply filter_app. Qed.

Lemma fieldCalls_case (d : MiniDSP) (a x : Z) (fl : Field) :
  fieldCalls fl (byteReadCase cb d a x).2
  = if decide (fieldOf a = Some fl) then (byteReadCase cb d a x).2 else [].
Proof.
  destruct (byteReadCase_calls d a x) as [-> | ->].
  - by destruct (decide _).
  - apply fieldCalls_alwaysCalls.
Qed.

Lemma alwaysCalls_same_field (a a' x : Z) :
  fieldOf a = fieldOf a' → alwaysCalls cb (a, x) = alwaysCalls cb (a', x).
Proof. intros Heq. unfold alwaysCalls. cbn [fst snd]. by rewrite Heq. Qed.

Lemma byteReadRun_sublist (d : MiniDSP) (ps : list (Z * Z)) :
  (byteReadRun cb d ps).2 `sublist_of` flat_map (alwaysCalls cb) ps.
Proof.
  revert d. induction ps as [|[a x] ps IH]; intros d; [done|].
  cbn [byteReadRun flat_map].
  pose proof (byteReadCase_calls d a x) as Hc.
  destruct (byteReadCase cb d a x) as [d1 ev1]. specialize (IH d1).
  destruct (byteReadRun cb d1 ps) as [d2 ev2]. cbn [fst snd] in *.
  apply sublist_app; [|done].
  destruct Hc as [-> | ->]; [apply sublist_nil_l | done].
Qed.

Lemma byteReadRun_no_calls (d : MiniDSP) (ps : list (Z * Z)) (fl : Field) :
  Forall (λ p, fieldOf p.1 ≠ Some fl) ps →
  fieldCalls fl (byteReadRun cb d ps).2 = [].
Proof.
  revert d. induction ps as [|[a x] ps IH]; intros d Hps; [done|].
  apply Forall_cons in Hps as [Ha Hps]. cbn [byteReadRun].
  pose proof (fieldCalls_case d a x fl) as Hc.
  destruct (byteReadCase cb d a x) as [d1 ev1]. specialize (IH d1 Hps).
  destruct (byteReadRun cb d1 ps) as [d2 ev2]. cbn [fst snd] in *.
  rewrite fieldCalls_app, Hc, IH. by destruct (decide _).
Qed.

Lemma byteReadRun_settled (d : MiniDSP) (ps : list (Z * Z)) (fl : Field) :
  callbackAlways d = false →
  (∀ a x, (a, x) ∈ ps → fieldOf a = Some fl → x = getField fl d) →
  fieldCalls fl (byteReadRun cb d ps).2 = [].
Proof.
  revert d. induction ps as [|[a x] ps IH]; intros d Hmode Hval; [done|].
  cbn [byteReadRun].
  pose proof (fieldCalls_case d a x fl) as Hc.
  pose proof (byteReadCase_on_change d a x fl Hmode) as Hon.
  pose proof (byteReadCase_mode cb d a x) as Hm.
  destruct (byteReadCase_field cb d a x fl) as [Hset Hkeep].
  destruct (byteReadCase cb d a x) as [d1 ev1].
  specialize (IH d1). destruct (byteReadRun cb d1 ps) as [d2 ev2].
  cbn [fst snd] in *. rewrite fieldCalls_app, Hc, IH.
  - destruct (decide (fieldOf a = Some fl)) as [Hfl|Hfl]; [|done].
    rewrite Hon by done. rewrite (Hval a x) by (done || by left).
    by rewrite Z.eqb_refl.
  - congruence.
  - intros a' x' Hin Hfl'. rewrite (Hval a' x') by (done || by right).
    destruct (decide (fieldOf a = Some fl)) as [Hfl|Hfl].
    + rewrite Hset by done. symmetry. apply (Hval a x); [by left | done].
    + symmetry. by apply Hkeep.
Qed.

(** In on-change mode a run that meets no conflicting values calls the
    callback of a field it carries once when the value differs from the
    stored one and not at all when it is the same. *)
Lemma byteReadRun_first_calls (d : MiniDSP) (ps : list (Z * Z)) (a x : Z)
    (fl : Field) :
  callbackAlways d = false → consistentPairs ps →
  (a, x) ∈ ps → fieldOf a = Some fl →
  fieldCalls fl (byteReadRun cb d ps).2
  = if x =? getField fl d then [] else alwaysCalls cb (a, x).
Proof.
  revert d. induction ps as [|[a0 x0] ps IH]; intros d Hmode Hcons Hin Hfl.
  { by apply elem_of_nil in Hin. }
  assert (Hcons' : consistentPairs ps).
  { intros b y b' y' fl' Hb Hb'. apply (Hcons b y b' y' fl'); by right. }
  cbn [byteReadRun].
  pose proof (fieldCalls_case d a0 x0 fl) as Hc.
  pose proof (byteReadCase_on_change d a0 x0 fl Hmode) as Hon.
  pose proof (byteReadCase_mode cb d a0 x0) as Hm.
  destruct (byteReadCase_field cb d a0 x0 fl) as [Hset Hkeep].
  pose proof (λ d1, byteReadRun_settled d1 ps fl) as Hsettled.
  destruct (byteReadCase cb d a0 x0) as [d1 ev1].
  specialize (IH d1). specialize (Hsettled d1).
  destruct (byteReadRun cb d1 ps) as [d2 ev2]. cbn [fst snd] in *.
  rewrite fieldCalls_app, Hc.
  destruct (decide (fieldOf a0 = Some fl)) as [Hfl0|Hfl0].
  - assert (x0 = x) as ->.
    { apply (Hcons a0 x0 a x fl); [by left | done | done | done]. }
    rewrite Hon by done. rewrite Hsettled, app_nil_r.
    + by rewrite (alwaysCalls_same_field a0 a x) by congruence.
    + congruence.
    + intros a' x' Hin' Hfl'. rewrite Hset by done.
      apply (Hcons a' x' a0 x fl); [by right | by left | done | done].
  - apply elem_of_cons in Hin as [[= -> ->]|Hin]; [done|].
    rewrite IH by (done || congruence). by rewrite Hkeep.
Qed.

Example MiniDSP_new_sentinels :
  (preset MiniDSP_new, source MiniDSP_new, volume MiniDSP_new, muted MiniDSP_new)
  = (4, 3, 256, 2).
Proof. reflexivity. Qed.

(** C3 (amended).  In a state that still holds the initial values
    [preset = 4], [source = 3], [volume = 256], [muted = 2], in either mode:
    every legal value of a field differs from the stored one; the first
    update of [source], [volume] or [muted], by a byte-read address or by a
    direct-set frame, stores the value and calls the field's callback once
    when one is attached; the first update of [preset] stores the value and
    calls nothing; and a byte-read frame with [4 <= frame[0] <= 64] that
    carries address [0xDA] calls an attached volume callback exactly once,
    with the byte of that address. *)
Theorem sentinel_first_observation (d : MiniDSP) :
  preset d = preset MiniDSP_new → source d = source MiniDSP_new →
  volume d = volume MiniDSP_new → muted d = muted MiniDSP_new →
  (∀ v, 0 <= v <= 3 →
     v ≠ preset d
     ∧ byteReadCase cb d 0xD8 v = (set_preset v d, []))
  ∧ (∀ v, 0 <= v <= 2 →
       let calls := if pFuncOnSourceChange cb then [OnSourceChange v] else [] in
       v ≠ source d
       ∧ byteReadCase cb d 0xA9 v = (set_source v d, calls)
       ∧ byteReadCase cb d 0xD9 v = (set_source v d, calls)
       ∧ ∀ f, f !! 1%nat = Some 0x34 → f !! 2%nat = Some v →
              parseDirectSetResponse cb d (frame_mem f)
              = Some (set_source v d, calls))
  ∧ (∀ v, 0 <= v <= 255 →
       let calls := if pFuncOnVolumeChange cb then [OnVolumeChange v] else [] in
       v ≠ volume d
       ∧ byteReadCase cb d 0xDA v = (set_volume v d, calls)
       ∧ ∀ f, f !! 1%nat = Some 0x42 → f !! 2%nat = Some v →
              parseDirectSetResponse cb d (frame_mem f)
              = Some (set_volume v d, calls))
  ∧ (∀ v, 0 <= v <= 1 →
       let calls :=
         if pFuncOnMutedChange cb then [OnMutedChange (negb (v =? 0))] else [] in
       v ≠ muted d
       ∧ byteReadCase cb d 0xDB v = (set_muted v d, calls)
       ∧ ∀ f, f !! 1%nat = Some 0x17 → f !! 2%nat = Some v →
              parseDirectSetResponse cb d (frame_mem f)
              = Some (set_muted v d, calls))
  ∧ (∀ f b0 base i,
       length f = 64%nat → Forall is_byte f →
       f !! 0%nat = Some b0 → f !! 3%nat = Some base →
       4 <= b0 <= 64 → 0 <= i < b0 - 4 → wrap8 (base + i) = 0xDA →
       ∃ d' ev,
         parseByteReadResponse cb d (frame_mem f) = Some (d', ev)
         ∧ volume d' = frame_byte f (i + 4)
         ∧ volumeCalls ev
           = if pFuncOnVolumeChange cb then [frame_byte f (i + 4)] else []).
Proof.
  intros Hp Hs Hv Hm. split_and!.
  - intros v Hr. split; [rewrite Hp; cbn; lia | done].
  - intros v Hr calls. split; [rewrite Hs; cbn; lia|].
    pose proof (updateSource_first cb d v Hs Hr) as Hu.
    split_and!; [exact Hu | exact Hu |].
    intros f H1 H2. rewrite (parseDirectSetResponse_frame d f 0x34 v) by done.
    f_equal. exact Hu.
  - intros v Hr calls. split; [rewrite Hv; cbn; lia|].
    pose proof (updateVolume_first cb d v Hv Hr) as Hu.
    split_and!; [exact Hu |].
    intros f H1 H2. rewrite (parseDirectSetResponse_frame d f 0x42 v) by done.
    f_equal. exact Hu.
  - intros v Hr calls. split; [rewrite Hm; cbn; lia|].
    pose proof (updateMuted_first cb d v Hm Hr) as Hu.
    split_and!; [exact Hu |].
    intros f H1 H2. rewrite (parseDirectSetResponse_frame d f 0x17 v) by done.
    f_equal. exact Hu.
  - intros f b0 base i. by apply parseByteReadResponse_first_volume.
Qed.

(** C5 (amended).  A direct-set frame, and a byte-read frame with
    [4 <= frame[0] <= 64] that does not give [source] two different values
    (at [0xA9] and at [0xD9]), processed twice in succession in on-change
    mode: the first pass calls the attached callback of each field the frame
    carries exactly once when the carried value differs from the stored one
    and not at all when it is the same, in the order of the frame, and calls
    nothing else; the second pass leaves the state as it is and makes no
    call.  In always-notify mode the second pass makes the calls of the
    first again, one per reported field met.  A float-read frame with
    [4 <= frame[0] <= 64] makes the same level calls on both passes in
    either mode. *)
Theorem frame_twice (d : MiniDSP) (f : list Z) (b0 base : Z) :
  length f = 64%nat → f !! 0%nat = Some b0 → f !! 3%nat = Some base →
  (∃ opcode data d1 ev1,
     f !! 1%nat = Some opcode ∧ f !! 2%nat = Some data
     ∧ parseDirectSetResponse cb d (frame_mem f) = Some (d1, ev1)
     ∧ (callbackAlways d = false →
        ev1 = match directSetField opcode with
              | Some fl => if data =? getField fl d then []
                           else directSetCalls cb opcode data
              | None => []
              end
        ∧ parseDirectSetResponse cb d1 (frame_mem f) = Some (d1, []))
     ∧ (callbackAlways d = true →
        ev1 = directSetCalls cb opcode data
        ∧ parseDirectSetResponse cb d1 (frame_mem f) = Some (d1, ev1)))
  ∧ (4 <= b0 <= 64 →
     ∃ d1 ev1,
       parseByteReadResponse cb d (frame_mem f) = Some (d1, ev1)
       ∧ (callbackAlways d = false → ¬ sourceConflict f →
          ev1 `sublist_of`
            flat_map (alwaysCalls cb) (byteReadPairs f base (b0 - 4))
          ∧ (∀ i fl, 0 <= i < b0 - 4 →
               fieldOf (wrap8 (base + i)) = Some fl →
               fieldCalls fl ev1
               = if frame_byte f (i + 4) =? getField fl d then []
                 else alwaysCalls cb (byteReadPair f base i))
          ∧ (∀ fl, (∀ i, 0 <= i < b0 - 4 →
                         fieldOf (wrap8 (base + i)) ≠ Some fl) →
                   fieldCalls fl ev1 = [])
          ∧ parseByteReadResponse cb d1 (frame_mem f) = Some (d1, []))
       ∧ (callbackAlways d = true →
          ev1 = flat_map (alwaysCalls cb) (byteReadPairs f base (b0 - 4))
          ∧ ∃ d2, parseByteReadResponse cb d1 (frame_mem f) = Some (d2, ev1)))
  ∧ (4 <= b0 <= 64 →
     ∃ d1 ev1,
       parseFloatReadResponse cb d (frame_mem f) = Some (d1, ev1)
       ∧ parseFloatReadResponse cb d1 (frame_mem f) = Some (d1, ev1)).
Proof.
  intros Hlen H0 H3. split_and!.
  - destruct (lookup_frame f 64 1 Hlen) as [opcode H1]; [lia|].
    destruct (lookup_frame f 64 2 Hlen) as [data H2]; [lia|].
    destruct (parseDirectSetResponse_twice d f opcode data H1 H2)
      as (d1 & ev1 & Hfirst & Hquiet & Halways).
    by exists opcode, data, d1, ev1.
  - intros Hb. set (ps := byteReadPairs f base (b0 - 4)).
    exists (byteReadRun cb d ps).1, (byteReadRun cb d ps).2.
    rewrite !(parseByteReadResponse_run cb _ f b0 base) by done. fold ps.
    split_and!.
    + by destruct (byteReadRun cb d ps).
    + intros Hmode Hnc.
      pose proof (byteReadPairs_consistent f b0 base H0 H3 Hb Hnc) as Hcons.
      fold ps in Hcons. split_and!.
      * apply byteReadRun_sublist.
      * intros i fl Hi Hfl.
        apply (byteReadRun_first_calls d ps (wrap8 (base + i))); try done.
        unfold ps, byteReadPairs. apply list_elem_of_fmap.
        exists i. split; [done|]. apply elem_of_seqZ. lia.
      * intros fl Hnone. apply byteReadRun_no_calls.
        unfold ps, byteReadPairs. apply Forall_fmap, Forall_forall.
        intros i Hi%elem_of_seqZ. cbn. apply Hnone. lia.
      * by rewrite byteReadRun_twice_quiet.
    + intros Hmode. split; [by apply byteReadRun_always|].
      exists (byteReadRun cb (byteReadRun cb d ps).1 ps).1.
      rewrite (byteReadRun_always cb d ps Hmode).
      rewrite <-(byteReadRun_always cb (byteReadRun cb d ps).1 ps)
        by (by rewrite byteReadRun_mode).
      by destruct (byteReadRun cb (byteReadRun cb d ps).1 ps).
  - intros Hb. by apply (parseFloatReadResponse_twice cb d f b0).
Qed.

End Policy.

(** C3 (as stated, refuted).  The first frame that carries a preset,
    here the legal value 1 at address [0xD8], stores it over the initial 4
    and calls nothing, with every callback attached and in either mode. *)
Lemma preset_first_observation_counterexample :
  let f := padded [5; 0x05; 0xFF; 0xD8; 0x01] in
  1 ≠ preset MiniDSP_new
  ∧ parseByteReadResponse all_callbacks (callbackOnChange MiniDSP_new)
      (frame_mem f)
    = Some (set_preset 1 (callbackOnChange MiniDSP_new), [])
  ∧ parseByteReadResponse all_callbacks MiniDSP_new (frame_mem f)
    = Some (set_preset 1 MiniDSP_new, []).
Proof. split_and!; [done | by vm_compute | by vm_compute]. Qed.

Lemma sentinel_first_observation_witness :
  let d := callbackOnChange MiniDSP_new in
  let f := padded [6; 0x05; 0xFF; 0xDA; 0x14; 0x01] in
  parseByteReadResponse all_callbacks d (frame_mem f)
  = Some (set_muted 1 (set_volume 0x14 d), [OnVolumeChange 0x14; OnMutedChange true])
  ∧ ∃ d' ev,
      parseByteReadResponse all_callbacks d (frame_mem f) = Some (d', ev)
      ∧ volume d' = frame_byte f (0 + 4)
      ∧ volumeCalls ev = [frame_byte f (0 + 4)].
Proof.
  intros d f. split; [by vm_compute|].
  destruct (sentinel_first_observation all_callbacks d
              eq_refl eq_refl eq_refl eq_refl) as (_ & _ & _ & _ & Hframe).
  apply (Hframe f 6 0xDA 0); try reflexivity; try lia.
  unfold f, is_byte. repeat (constructor; [lia|]). constructor.
Defined.

(** C5 (as stated, refuted).  In on-change mode the second pass of a
    float-read frame calls the output-levels callback again; the second pass
    of a byte-read frame that carries source 0 at [0xA9] and source 1 at
    [0xD9] calls the source callback twice; and the first pass of a
    direct-set frame that carries the volume already stored calls nothing. *)
Lemma frame_twice_counterexample :
  let d := callbackOnChange MiniDSP_new in
  (∃ d1,
     parseFloatReadResponse all_callbacks d (frame_mem level_frame)
     = Some (d1, [OnNewOutputLevels [0x41200000; 0; 0; 0]])
     ∧ parseFloatReadResponse all_callbacks d1 (frame_mem level_frame)
       = Some (d1, [OnNewOutputLevels [0x41200000; 0; 0; 0]]))
  ∧ (∃ d1,
       parseByteReadResponse all_callbacks d (frame_mem two_sources_frame)
       = Some (d1, [OnSourceChange 0; OnSourceChange 1])
       ∧ parseByteReadResponse all_callbacks d1 (frame_mem two_sources_frame)
         = Some (d1, [OnSourceChange 0; OnSourceChange 1]))
  ∧ parseDirectSetResponse all_callbacks (set_volume 20 d)
      (frame_mem (padded [0x01; 0x42; 20]))
    = Some (set_volume 20 d, []).
Proof.
  intros d. split_and!.
  - eexists. split; [by vm_compute|]. by vm_compute.
  - eexists. split; [by vm_compute|]. by vm_compute.
  - by vm_compute.
Qed.

Lemma frame_twice_witness :
  let d := callbackOnChange MiniDSP_new in
  let f := padded [6; 0x05; 0xFF; 0xDA; 0x14; 0x01] in
  ∃ d1 ev1,
    parseByteReadResponse all_callbacks d (frame_mem f) = Some (d1, ev1)
    ∧ fieldCalls FVolume ev1 = [OnVolumeChange 0x14]
    ∧ fieldCalls FMuted ev1 = [OnMutedChange true]
    ∧ fieldCalls FSource ev1 = []
    ∧ parseByteReadResponse all_callbacks d1 (frame_mem f) = Some (d1, []).
Proof.
  intros d f.
  destruct (frame_twice all_callbacks d f 6 0xDA eq_refl eq_refl eq_refl)
    as (_ & Hbytes & _).
  destruct Hbytes as (d1 & ev1 & Hfirst & Hchange & _); [lia|].
  destruct Hchange as (_ & Hcalls & Hnone & Hquiet); [reflexivity | |].
  { intros (b0 & base & i & j & H0 & H3 & Hi & _ & Ha & _).
    injection H0 as <-. injection H3 as <-.
    change (wrap8 (6 - 4)) with 2 in Hi.
    assert (i = 0 ∨ i = 1) as [-> | ->] by lia; vm_compute in Ha;
      discriminate. }
  exists d1, ev1. split_and!.
  - exact Hfirst.
  - apply (Hcalls 0 FVolume); [lia | reflexivity].
  - apply (Hcalls 1 FMuted); [lia | reflexivity].
  - apply Hnone. intros i Hi.
    assert (i = 0 ∨ i = 1) as [-> | ->] by lia; by vm_compute.
  - exact Hquiet.
Defined.

Lemma parseDirectSetResponse_one_field_witness :
  let f := padded [0x01; 0x42; 0x14] in
  ∃ opcode data d' ev,
    f !! 1%nat = Some opcode ∧ f !! 2%nat = Some data
    ∧ parseDirectSetResponse all_callbacks MiniDSP_new (frame_mem f)
      = Some (d', ev)
    ∧ (opcode = 0x42 → d' = set_volume data MiniDSP_new)
    ∧ (opcode = 0x17 → d' = set_muted data MiniDSP_new)
    ∧ (opcode = 0x34 → d' = set_source data MiniDSP_new)
    ∧ (opcode ≠ 0x42 → opcode ≠ 0x17 → opcode ≠ 0x34 →
       d' = MiniDSP_new ∧ ev = []).
Proof.
  intros f.
  apply (parseDirectSetResponse_one_field all_callbacks MiniDSP_new f);
    reflexivity.
Defined.

Lemma parseFloatReadResponse_malformed_witness :
  let f := padded [9; 0x14; 0x00; 0x4A; 0x00; 0x00; 0x20; 0x41; 0x00] in
  wrap8 (9 - 4) mod 4 ≠ 0
  ∧ parseFloatReadResponse all_callbacks MiniDSP_new (frame_mem f)
    = Some (MiniDSP_new, []).
Proof.
  intros f. split; [by vm_compute|].
  apply (parseFloatReadResponse_malformed all_callbacks MiniDSP_new f 9);
    [reflexivity | reflexivity | by vm_compute].
Defined.

Lemma ParseHIDData_classification_witness :
  let f := padded [0x01; 0x42; 0x14] in
  let dbg := if pFuncOnParse all_callbacks then [OnParse f] else [] in
  let m := frame_mem f in
  let d := MiniDSP_new in
  (1 = 0x01 →
     ParseHIDData minidsp_2x4hd all_callbacks d 64 (Some f)
     = after dbg (parseDirectSetResponse all_callbacks d m))
  ∧ (1 ≠ 0x01 → 0x42 = 0x05 ∧ 0x14 = 0xFF →
     ParseHIDData minidsp_2x4hd all_callbacks d 64 (Some f)
     = after dbg (parseByteReadResponse all_callbacks d m))
  ∧ (1 ≠ 0x01 → ¬ (0x42 = 0x05 ∧ 0x14 = 0xFF) → 0x42 = 0x14 ∧ 0x14 = 0x00 →
     ParseHIDData minidsp_2x4hd all_callbacks d 64 (Some f)
     = after dbg (parseFloatReadResponse all_callbacks d m))
  ∧ (1 ≠ 0x01 → ¬ (0x42 = 0x05 ∧ 0x14 = 0xFF) →
     ¬ (0x42 = 0x14 ∧ 0x14 = 0x00) →
     ParseHIDData minidsp_2x4hd all_callbacks d 64 (Some f) = Some (d, dbg)).
Proof.
  intros f.
  apply (ParseHIDData_classification all_callbacks minidsp_2x4hd MiniDSP_new
           64 f 1 0x42 0x14); reflexivity.
Defined.

(** * setVolume(float) *)

(** Every half-dB step below 0 dB, from -0.5 dB down to -127 dB, reaches the
    conversion to [uint8_t] as the negative number [2 * dB]. *)
Lemma setVolume_float_half_steps (h : Z) :
  -254 <= h < 0 →
  (intVol_operand (h # 2) == h # 1)%Q ∧ setVolume_float (h # 2) = None.
Proof.
  intros Hh.
  assert (Hop : intVol_operand (h # 2) = ((h # 2) * (2 # 1))%Q).
  { unfold intVol_operand, min_macro, max_macro.
    destruct (Qlt_le_dec (0 # 1) (h # 2)) as [Hlt|_].
    { unfold Qlt in Hlt. cbn in Hlt. lia. }
    destruct (Qlt_le_dec (h # 2) (-127 # 1)) as [Hlt|_]; [|done].
    unfold Qlt in Hlt. cbn in Hlt. lia. }
  split.
  - rewrite Hop. unfold Qeq. cbn. lia.
  - unfold setVolume_float. rewrite Hop. unfold float_to_uint8.
    cbn [Qmult Qnum Qden Pos.mul].
    change (Z.pos (2 * 1)) with 2. rewrite Z.quot_mul by lia.
    destruct (Z.leb_spec 0 h); [lia | done].
Qed.

(** C8 (code at the failing input).  For -10 dB the value byte of the volume
    command is specified as 20.  The code computes the operand
    [max(-127, min(0, -10)) * 2 = -20], whose conversion to [uint8_t] is
    undefined; no command with value byte 20 results. *)
Theorem setVolume_float_minus_10dB :
  (intVol_operand (-10 # 1) == -20 # 1)%Q
  ∧ float_to_uint8 (intVol_operand (-10 # 1)) = None
  ∧ setVolume_float (-10 # 1) = None
  ∧ setVolume_float (-10 # 1) ≠ setVolume 20.
Proof. split_and!; by vm_compute. Qed.

(** At 0 dB nothing is negative and the command is the one for byte 0. *)
Example setVolume_float_0dB : setVolume_float (0 # 1) = setVolume 0.
Proof. by vm_compute. Qed.

(** * Further properties of the checksum and the encoder *)

Section EncoderMore.

Lemma sum16_mod (l : list Z) (s : Z) :
  sum16 s l mod 256 = (s + byte_sum l) mod 256.
Proof.
  revert s. induction l as [|a l IH]; intros s.
  { cbn. by rewrite Z.add_0_r. }
  cbn [sum16 foldl byte_sum foldr]. fold (sum16 (wrap16 (s + a)) l).
  rewrite IH. fold (byte_sum l). unfold wrap16.
  generalize (byte_sum l). intros t. Z.div_mod_to_equations. lia.
Qed.

Lemma land_255 (z : Z) : Z.land z 0xFF = z mod 256.
Proof. change 0xFF with (Z.ones 8). by rewrite Z.land_ones. Qed.

Lemma Checksum_loop_overrun (l : list Z) (n : nat) (i s : Z) :
  0 <= i → (0 < n)%nat → Z.of_nat (length l) < i + Z.of_nat n →
  Checksum_loop (frame_mem l) n i s = None.
Proof.
  revert i s. induction n as [|n IH]; intros i s Hi Hn Hlen; [lia|].
  cbn [Checksum_loop].
  destruct (Z.le_gt_cases (Z.of_nat (length l)) i) as [Hout|Hin].
  { by rewrite load_frame_None. }
  rewrite load_frame_byte by lia. cbn [mbind option_bind].
  apply IH; lia.
Qed.

Lemma Checksum_whole (l : list Z) :
  Checksum (frame_mem l) (Z.of_nat (length l)) = Some (byte_sum l mod 256).
Proof.
  rewrite <-(app_nil_r (frame_mem l)).
  by rewrite Checksum_frame, land_255, sum16_mod.
Qed.

(** X1.  [Checksum] over the first [n] bytes of an array returns their sum
    modulo 256, whatever the length (the 16-bit accumulator may wrap without
    harm); with [n] beyond the array the call reads outside it. *)
Theorem Checksum_sum (l : list Z) (n : Z) :
  0 <= n →
  Checksum (frame_mem l) n
  = if n <=? Z.of_nat (length l)
    then Some (byte_sum (take (Z.to_nat n) l) mod 256)
    else None.
Proof.
  intros Hn. destruct (Z.leb_spec n (Z.of_nat (length l))) as [Hle|Hgt].
  - set (t := take (Z.to_nat n) l).
    assert (Hl : frame_mem l = frame_mem t ++ frame_mem (drop (Z.to_nat n) l)).
    { unfold frame_mem, t. by rewrite <-fmap_app, take_drop. }
    assert (Hlen : n = Z.of_nat (length t))
      by (unfold t; rewrite length_take; lia).
    rewrite Hl, Hlen, Checksum_frame, land_255, sum16_mod. done.
  - unfold Checksum. by rewrite Checksum_loop_overrun by lia.
Qed.

Lemma Checksum_sum_witness :
  Checksum (frame_mem [0x03; 0x42; 0x14; 0x59]) 3
  = if 3 <=? Z.of_nat (length [0x03; 0x42; 0x14; 0x59])
    then Some (byte_sum (take (Z.to_nat 3) [0x03; 0x42; 0x14; 0x59]) mod 256)
    else None.
Proof. apply (Checksum_sum [0x03; 0x42; 0x14; 0x59] 3). lia. Defined.

Lemma byte_sum_app (l1 l2 : list Z) :
  byte_sum (l1 ++ l2) = byte_sum l1 + byte_sum l2.
Proof.
  induction l1 as [|a l1 IH]; [done|]. cbn [app byte_sum foldr].
  fold (byte_sum (l1 ++ l2)). fold (byte_sum l1). rewrite IH. lia.
Qed.

(** X2.  The checksum tells apart two arrays that differ in a single byte. *)
Theorem Checksum_single_byte_error (pre post : list Z) (a b : Z) :
  is_byte a → is_byte b → a ≠ b →
  Checksum (frame_mem (pre ++ a :: post))
           (Z.of_nat (length (pre ++ a :: post)))
  ≠ Checksum (frame_mem (pre ++ b :: post))
             (Z.of_nat (length (pre ++ b :: post))).
Proof.
  unfold is_byte. intros Ha Hb Hab. rewrite !Checksum_whole.
  rewrite !byte_sum_app. cbn [byte_sum foldr]. fold (byte_sum post).
  intros [= Heq]. apply Hab.
  set (S := byte_sum pre) in *. set (T := byte_sum post) in *.
  Z.div_mod_to_equations. lia.
Qed.

Lemma Checksum_single_byte_error_witness :
  Checksum (frame_mem ([0x03; 0x42] ++ 0x14 :: []))
           (Z.of_nat (length ([0x03; 0x42] ++ 0x14 :: [])))
  ≠ Checksum (frame_mem ([0x03; 0x42] ++ 0x15 :: []))
             (Z.of_nat (length ([0x03; 0x42] ++ 0x15 :: []))).
Proof.
  apply (Checksum_single_byte_error [0x03; 0x42] [] 0x14 0x15);
    unfold is_byte; lia.
Defined.

(** X3.  The checksum does not depend on the order of the bytes: a
    reordering of an array is not noticed. *)
Theorem Checksum_permutation (l1 l2 : list Z) :
  l1 ≡ₚ l2 →
  Checksum (frame_mem l1) (Z.of_nat (length l1))
  = Checksum (frame_mem l2) (Z.of_nat (length l2)).
Proof.
  intros Hp. rewrite !Checksum_whole. do 2 f_equal.
  induction Hp as [|x l l' _ IH|x y l|l l' l'' _ IH1 _ IH2].
  - done.
  - cbn [byte_sum foldr]. fold (byte_sum l). fold (byte_sum l'). by rewrite IH.
  - cbn [byte_sum foldr]. lia.
  - congruence.
Qed.

Lemma Checksum_permutation_witness :
  Checksum (frame_mem [0x42; 0x14]) (Z.of_nat (length [0x42; 0x14]))
  = Checksum (frame_mem [0x14; 0x42]) (Z.of_nat (length [0x14; 0x42])).
Proof. apply (Checksum_permutation [0x42; 0x14] [0x14; 0x42]). apply perm_swap. Defined.

End EncoderMore.

(** * The commands *)

Section Commands.

Lemma SendCommand_take (command : list Z) (n : Z) :
  0 <= n <= Z.of_nat (length command) →
  SendCommand command n = SendCommand (take (Z.to_nat n) command) n.
Proof.
  intros Hn. unfold SendCommand. destruct (n >? 63); [done|].
  destruct (store _ 0 _) as [buf|]; [|done]. cbn [mbind option_bind].
  assert (Hcpy : memcpy buf 1 command n
                 = memcpy buf 1 (take (Z.to_nat n) command) n).
  { unfold memcpy. rewrite take_idemp, length_take.
    destruct (Z.leb_spec n (Z.of_nat (length command))); [|lia].
    by destruct (Z.leb_spec n (Z.of_nat (Z.to_nat n `min` length command)));
      [|lia]. }
  by rewrite Hcpy.
Qed.

Lemma SendCommand_short_buffer (command : list Z) (n : Z) :
  0 <= n <= 63 → Z.of_nat (length command) < n →
  SendCommand command n = None.
Proof.
  intros Hn Hlen. unfold SendCommand.
  destruct (Z.gtb_spec n 63); [lia|].
  change (replicate 64 None) with ([] ++ @None Z :: replicate 63 None).
  rewrite store_at by done. cbn [mbind option_bind app].
  unfold memcpy.
  destruct (Z.leb_spec n (Z.of_nat (length command))); [lia|].
  by rewrite andb_false_r.
Qed.

(** X4.  What [SendCommand] does for every length: above 63 it returns at
    once; up to 62, with that many bytes readable, it hands over the one
    buffer built from the first [n] bytes of the command (62 bytes leave no
    padding); with 63, or with fewer bytes readable than announced, it
    accesses memory outside an array. *)
Theorem SendCommand_cases (command : list Z) (n : Z) :
  0 <= n →
  SendCommand command n
  = if 63 <? n then Some []
    else if (n <=? 62) && (n <=? Z.of_nat (length command))
         then Some [encoded (take (Z.to_nat n) command)]
         else None.
Proof.
  intros Hn.
  destruct (Z.ltb_spec 63 n) as [Hbig|Hle]; [by apply SendCommand_guard|].
  destruct (Z.leb_spec n (Z.of_nat (length command))) as [Hfit|Hshort].
  2:{ rewrite andb_false_r. apply SendCommand_short_buffer; lia. }
  rewrite andb_true_r, SendCommand_take by lia.
  assert (Hlen : length (take (Z.to_nat n) command) = Z.to_nat n)
    by (rewrite length_take; lia).
  destruct (Z.leb_spec n 62) as [H62|H63].
  - rewrite <-(Z2Nat.id n) at 2 by lia. rewrite <-Hlen at 2.
    apply SendCommand_encoded. lia.
  - assert (n = 63) as -> by lia. by apply SendCommand_63_overrun.
Qed.

Lemma SendCommand_cases_witness :
  SendCommand [0x42; 0x14; 0x00] 2
  = if 63 <? 2 then Some []
    else if (2 <=? 62) && (2 <=? Z.of_nat (length [0x42; 0x14; 0x00]))
         then Some [encoded (take (Z.to_nat 2) [0x42; 0x14; 0x00])]
         else None.
Proof. apply (SendCommand_cases [0x42; 0x14; 0x00] 2). lia. Defined.

Lemma land_255_byte (z : Z) : is_byte (Z.land z 0xFF).
Proof. rewrite land_255. unfold is_byte. apply Z.mod_pos_bound. lia. Qed.

(** X5.  For a command of at most 62 bytes the buffer sent consists of 64
    bytes: neither the length byte nor the checksum leaves [0 .. 255]. *)
Theorem SendCommand_sends_bytes (command : list Z) :
  (length command ≤ 62)%nat → Forall is_byte command →
  ∃ frame,
    SendCommand command (Z.of_nat (length command)) = Some [frame]
    ∧ length frame = 64%nat ∧ Forall is_byte frame.
Proof.
  intros HL Hbytes. exists (encoded command).
  split; [by apply SendCommand_encoded|]. unfold encoded. split.
  - rewrite length_app, !length_cons, length_replicate. lia.
  - apply Forall_app. split.
    + constructor; [unfold is_byte; lia | done].
    + constructor; [apply land_255_byte|].
      apply Forall_replicate. unfold is_byte. lia.
Qed.

Lemma SendCommand_sends_bytes_witness :
  ∃ frame,
    SendCommand [0x05; 0xFF; 0xD9; 0x03]
      (Z.of_nat (length [0x05; 0xFF; 0xD9; 0x03])) = Some [frame]
    ∧ length frame = 64%nat ∧ Forall is_byte frame.
Proof.
  apply (SendCommand_sends_bytes [0x05; 0xFF; 0xD9; 0x03]); [cbn; lia|].
  unfold is_byte. repeat (constructor; [lia|]). constructor.
Defined.

Lemma direct_command (opcode value : Z) :
  is_byte opcode → is_byte value →
  SendCommand [opcode; value] 2
  = Some [[0x03; opcode; value; (0x03 + opcode + value) mod 256]
          ++ replicate 60 0xFF].
Proof.
  intros Ho Hv.
  change 2 with (Z.of_nat (length [opcode; value])) at 1.
  rewrite (SendCommand_encoded [opcode; value]) by (cbn; lia).
  unfold encoded. rewrite land_255, sum16_mod.
  cbn [length byte_sum foldr Nat.sub app].
  change (Z.of_nat 2 + 1) with 3.
  by replace (0 + (3 + (opcode + (value + 0)))) with (3 + opcode + value) by lia.
Qed.

(** X6.  [setVolume(uint8_t)] and [setMute] always send exactly one frame:
    [03 42 v] or [03 17 m], the checksum [(0x45 + v) mod 256] or [0x1A + m],
    and 60 bytes [0xFF]. *)
Theorem setVolume_setMute_frames (v : Z) (muteOn : bool) :
  is_byte v →
  setVolume v
  = Some [[0x03; 0x42; v; (0x45 + v) mod 256] ++ replicate 60 0xFF]
  ∧ setMute muteOn
    = Some [[0x03; 0x17; if muteOn then 0x01 else 0x00;
             if muteOn then 0x1B else 0x1A] ++ replicate 60 0xFF].
Proof.
  intros Hv. split.
  - unfold setVolume. rewrite direct_command by (unfold is_byte in *; lia).
    do 5 f_equal.
  - by destruct muteOn.
Qed.

Lemma setVolume_setMute_frames_witness :
  setVolume 20
  = Some [[0x03; 0x42; 20; (0x45 + 20) mod 256] ++ replicate 60 0xFF]
  ∧ setMute true
    = Some [[0x03; 0x17; 0x01; 0x1B] ++ replicate 60 0xFF].
Proof. apply (setVolume_setMute_frames 20 true). unfold is_byte. lia. Defined.

(** X7.  [setSource] sends the frame [03 34 s], checksum [0x37 + s], padding,
    for [s] 0 or 1 and sends nothing for any larger value: source 2 (USB)
    cannot be selected. *)
Theorem setSource_cases (s : Z) :
  is_byte s →
  setSource s
  = if s <=? 1
    then Some [[0x03; 0x34; s; 0x37 + s] ++ replicate 60 0xFF]
    else Some [].
Proof.
  unfold is_byte. intros Hs. unfold setSource.
  destruct (Z.gtb_spec s 1) as [Hgt|Hle];
    destruct (Z.leb_spec s 1); try lia; [done|].
  assert (s = 0 ∨ s = 1) as [-> | ->] by lia; done.
Qed.

Lemma setSource_cases_witness :
  setSource 1
  = if 1 <=? 1
    then Some [[0x03; 0x34; 1; 0x37 + 1] ++ replicate 60 0xFF]
    else Some [].
Proof. apply (setSource_cases 1). unfold is_byte. lia. Defined.

(** X8.  [setVolume(float)] is defined exactly for arguments above -0.5 dB,
    and for all of them it sends the command for 0: the product by [+2] is
    negative from -0.5 dB down, and a negative value has no conversion to
    [uint8_t]. *)
Theorem setVolume_float_cases (volume : Q) :
  setVolume_float volume
  = if Qlt_le_dec (-1 # 2) volume then setVolume 0 else None.
Proof.
  destruct volume as [n d]. unfold setVolume_float, intVol_operand.
  unfold min_macro, max_macro.
  destruct (Qlt_le_dec (-1 # 2) (n # d)) as [Hhi|Hlo];
    destruct (Qlt_le_dec (0 # 1) (n # d)) as [Hpos|Hneg].
  - done.
  - destruct (Qlt_le_dec (n # d) (-127 # 1)) as [Hlt|Hge].
    { unfold Qlt in *. cbn in *. lia. }
    unfold float_to_uint8. cbn [Qmult Qnum Qden].
    unfold Qlt, Qle in *. cbn [Qnum Qden] in *.
    assert (Hq : Z.quot (n * 2) (Z.pos (d * 1)) = 0).
    { rewrite <-(Z.opp_involutive (n * 2)), Z.quot_opp_l by lia.
      rewrite Z.quot_small by lia. done. }
    rewrite Hq. done.
  - unfold Qlt, Qle in *. cbn in *. lia.
  - destruct (Qlt_le_dec (n # d) (-127 # 1)) as [Hlt|Hge]; [done|].
    unfold float_to_uint8. cbn [Qmult Qnum Qden].
    unfold Qlt, Qle in *. cbn [Qnum Qden] in *.
    assert (Hq : Z.quot (n * 2) (Z.pos (d * 1)) < 0).
    { rewrite <-(Z.opp_involutive (n * 2)), Z.quot_opp_l by lia.
      assert (0 < Z.quot (- (n * 2)) (Z.pos (d * 1)));
        [apply Z.quot_str_pos|]; lia. }
    by destruct (Z.leb_spec 0 (Z.quot (n * 2) (Z.pos (d * 1)))); [lia|].
Qed.

End Commands.

(** * Further properties of the byte-read parser *)

Section ByteReadMore.

Context (cb : Callbacks).

(** [ParseHIDData] on a frame of the device, with the three leading bytes
    read once. *)
Lemma ParseHIDData_frame (hid : HIDUniversal) (d : MiniDSP) (len : Z)
    (f : list Z) (b0 b1 b2 : Z) :
  VID hid = MINIDSP_VID → PID hid = MINIDSP_PID →
  f !! 0%nat = Some b0 → f !! 1%nat = Some b1 → f !! 2%nat = Some b2 →
  ParseHIDData hid cb d len (Some f)
  = after (if pFuncOnParse cb then [OnParse f] else [])
      (if b0 =? 0x01 then parseDirectSetResponse cb d (frame_mem f)
       else if (b1 =? 0x05) && (b2 =? 0xFF)
            then parseByteReadResponse cb d (frame_mem f)
       else if (b1 =? 0x14) && (b2 =? 0x00)
            then parseFloatReadResponse cb d (frame_mem f)
       else Some (d, [])).
Proof.
  intros HV HP H0 H1 H2.
  unfold ParseHIDData. rewrite HV, HP, !Z.eqb_refl. cbn [negb orb].
  f_equal. unfold readByteCommand, readByteHighAddr, readFloatCommand,
    readFloatHighAddr.
  rewrite (byte_is_frame f 0 _ b0), (byte_is_frame f 1 _ b1),
    (byte_is_frame f 1 _ b1), (byte_is_frame f 2 _ b2),
    (byte_is_frame f 2 _ b2) by done.
  cbn [mbind option_bind and_then].
  destruct (b0 =? 1); [done|].
  destruct (b1 =? 5), (b1 =? 20), (b2 =? 255), (b2 =? 0); done.
Qed.

Lemma frame_byte_encoded (cmd : list Z) (k : nat) (x : Z) :
  cmd !! k = Some x → frame_byte (encoded cmd) (Z.of_nat k + 1) = x.
Proof.
  intros Hk. unfold frame_byte, encoded.
  replace (Z.to_nat (Z.of_nat k + 1)) with (S k) by lia.
  change (((?h :: cmd) ++ ?r) !! S k) with ((cmd ++ r) !! k).
  by rewrite lookup_app_l, Hk by (by apply lookup_lt_Some in Hk).
Qed.

Lemma byteReadPairs_encoded (op hi base : Z) (data : list Z) :
  byteReadPairs (encoded ([op; hi; base] ++ data)) base
    (Z.of_nat (length data))
  = addressed base data.
Proof.
  unfold byteReadPairs, addressed. apply list_eq. intros k.
  rewrite list_lookup_fmap, list_lookup_imap.
  destruct (data !! k) as [x|] eqn:Hx.
  - pose proof (lookup_lt_Some _ _ _ Hx) as Hlt.
    rewrite lookup_seqZ_lt by lia. cbn [fmap option_fmap option_map].
    unfold byteReadPair. rewrite Z.add_0_l. do 2 f_equal.
    replace (Z.of_nat k + 4) with (Z.of_nat (3 + k) + 1) by lia.
    apply frame_byte_encoded. done.
  - apply lookup_ge_None in Hx. by rewrite lookup_seqZ_ge by lia.
Qed.

(** X9.  Encoding and decoding agree on the layout.  The frame
    [SendCommand] builds for the command [05 FF base data...] (at most 59
    data bytes) is classified as a byte-read response by [ParseHIDData], and
    parsing it applies the table to [data[i]] at address [base + i] (modulo
    256) for every [i], in order, after the debug hook. *)
Theorem byte_read_round_trip (hid : HIDUniversal) (d : MiniDSP) (len : Z)
    (base : Z) (data : list Z) :
  VID hid = MINIDSP_VID → PID hid = MINIDSP_PID →
  (length data ≤ 59)%nat →
  ∃ frame,
    SendCommand ([0x05; 0xFF; base] ++ data) (Z.of_nat (3 + length data))
    = Some [frame]
    ∧ ParseHIDData hid cb d len (Some frame)
      = Some ((byteReadRun cb d (addressed base data)).1,
              (if pFuncOnParse cb then [OnParse frame] else [])
              ++ (byteReadRun cb d (addressed base data)).2).
Proof.
  intros HV HP Hlen. set (cmd := [0x05; 0xFF; base] ++ data).
  exists (encoded cmd). split.
  { apply (SendCommand_encoded cmd). cbn [cmd app length]. lia. }
  assert (Hflen : length (encoded cmd) = 64%nat).
  { unfold encoded. rewrite length_app, !length_cons, length_replicate.
    cbn [cmd app length]. lia. }
  rewrite (ParseHIDData_frame hid d len (encoded cmd)
             (Z.of_nat (length data) + 4) 0x05 0xFF); try done.
  2:{ unfold encoded. cbn [cmd app length lookup list_lookup]. f_equal. lia. }
  destruct (Z.eqb_spec (Z.of_nat (length data) + 4) 1) as [?|_]; [lia|].
  cbn [Z.eqb Pos.eqb andb].
  rewrite (parseByteReadResponse_run cb d (encoded cmd)
             (Z.of_nat (length data) + 4) base); try done; try lia.
  2:{ unfold encoded. cbn [cmd app length lookup list_lookup]. f_equal. lia. }
  replace (Z.of_nat (length data) + 4 - 4) with (Z.of_nat (length data)) by lia.
  unfold cmd. rewrite byteReadPairs_encoded.
  by destruct (byteReadRun cb d (addressed base data)).
Qed.

Lemma byteReadCase_levels (d : MiniDSP) (addr data : Z) :
  outputLevels (byteReadCase cb d addr data).1 = outputLevels d
  ∧ inputLevels (byteReadCase cb d addr data).1 = inputLevels d.
Proof.
  unfold byteReadCase, updateSource, updateVolume, updateMuted.
  by repeat case_match.
Qed.

Lemma byteReadRun_levels (d : MiniDSP) (ps : list (Z * Z)) :
  outputLevels (byteReadRun cb d ps).1 = outputLevels d
  ∧ inputLevels (byteReadRun cb d ps).1 = inputLevels d.
Proof.
  revert d. induction ps as [|[a x] ps IH]; intros d; [done|].
  cbn [byteReadRun]. destruct (byteReadCase_levels d a x) as [Ho Hi].
  destruct (byteReadCase cb d a x) as [d1 ev1]. specialize (IH d1).
  destruct (byteReadRun cb d1 ps) as [d2 ev2]. cbn [fst snd] in *.
  destruct IH as [-> ->]. done.
Qed.

Lemma byteReadRun_untouched (d : MiniDSP) (ps : list (Z * Z)) (fl : Field) :
  Forall (λ p, fieldOf p.1 ≠ Some fl) ps →
  getField fl (byteReadRun cb d ps).1 = getField fl d.
Proof.
  intros Hps.
  destruct (byteReadRun_field cb d ps fl) as [H|(a & x & Hin & Hfl & _)];
    [done|].
  rewrite Forall_forall in Hps. by destruct (Hps (a, x) Hin).
Qed.

(** X10.  A byte-read frame with [4 <= frame[0] <= 64] that does not give
    [source] two different values leaves every field of the table holding the
    byte the frame carries for it; a field none of whose addresses occurs
    keeps its value, and the mode and the level arrays are never changed. *)
Theorem parseByteReadResponse_stores (d : MiniDSP) (f : list Z) (b0 base : Z) :
  length f = 64%nat → f !! 0%nat = Some b0 → f !! 3%nat = Some base →
  4 <= b0 <= 64 → ¬ sourceConflict f →
  ∃ d' ev,
    parseByteReadResponse cb d (frame_mem f) = Some (d', ev)
    ∧ (∀ i fl, 0 <= i < b0 - 4 → fieldOf (wrap8 (base + i)) = Some fl →
         getField fl d' = frame_byte f (i + 4))
    ∧ (∀ fl, (∀ i, 0 <= i < b0 - 4 → fieldOf (wrap8 (base + i)) ≠ Some fl) →
         getField fl d' = getField fl d)
    ∧ callbackAlways d' = callbackAlways d
    ∧ outputLevels d' = outputLevels d ∧ inputLevels d' = inputLevels d.
Proof.
  intros Hlen H0 H3 Hb Hnc. set (ps := byteReadPairs f base (b0 - 4)).
  exists (byteReadRun cb d ps).1, (byteReadRun cb d ps).2.
  rewrite (parseByteReadResponse_run cb d f b0 base) by done. fold ps.
  split_and!.
  - by destruct (byteReadRun cb d ps).
  - intros i fl Hi Hfl.
    apply (byteReadRun_agrees cb d ps
             (byteReadPairs_consistent f b0 base H0 H3 Hb Hnc)
             (wrap8 (base + i))); [|done].
    unfold ps, byteReadPairs. apply list_elem_of_fmap.
    exists i. split; [done|]. apply elem_of_seqZ. lia.
  - intros fl Hnone. apply byteReadRun_untouched.
    unfold ps, byteReadPairs. apply Forall_fmap, Forall_forall.
    intros i Hi%elem_of_seqZ. cbn. apply Hnone. lia.
  - apply byteReadRun_mode.
  - apply byteReadRun_levels.
  - apply byteReadRun_levels.
Qed.

Lemma byteReadRun_skipped (d : MiniDSP) (ps : list (Z * Z)) :
  Forall (λ p, fieldOf p.1 = None) ps → byteReadRun cb d ps = (d, []).
Proof.
  induction ps as [|[a x] ps IH]; intros Hps; [done|].
  apply Forall_cons in Hps as [Ha Hps]. cbn [byteReadRun].
  assert (Hc : byteReadCase cb d a x = (d, [])).
  { cbn in Ha. unfold byteReadCase. unfold fieldOf in Ha.
    destruct (a =? 0xD8); [done|].
    destruct ((a =? 0xA9) || (a =? 0xD9)); [done|].
    destruct (a =? 0xDA); [done|]. by destruct (a =? 0xDB). }
  by rewrite Hc, IH.
Qed.

(** X11.  Addresses outside the table are skipped: a byte-read frame none of
    whose addresses [base + i] (modulo 256) is [0xD8], [0xA9], [0xD9], [0xDA]
    or [0xDB] leaves the state as it is and makes no call, in either mode. *)
Theorem parseByteReadResponse_skips (d : MiniDSP) (f : list Z) (b0 base : Z) :
  length f = 64%nat → f !! 0%nat = Some b0 → f !! 3%nat = Some base →
  4 <= b0 <= 64 →
  (∀ i, 0 <= i < b0 - 4 → fieldOf (wrap8 (base + i)) = None) →
  parseByteReadResponse cb d (frame_mem f) = Some (d, []).
Proof.
  intros Hlen H0 H3 Hb Hnone.
  rewrite (parseByteReadResponse_run cb d f b0 base) by done.
  rewrite byteReadRun_skipped; [done|].
  unfold byteReadPairs. apply Forall_fmap, Forall_forall.
  intros i Hi%elem_of_seqZ. cbn. apply Hnone. lia.
Qed.

End ByteReadMore.

Lemma byte_read_round_trip_witness :
  ∃ frame,
    SendCommand ([0x05; 0xFF; 0xDA] ++ [0x14; 0x01]) (Z.of_nat (3 + 2))
    = Some [frame]
    ∧ ParseHIDData minidsp_2x4hd all_callbacks MiniDSP_new 64 (Some frame)
      = Some ((byteReadRun all_callbacks MiniDSP_new
                 (addressed 0xDA [0x14; 0x01])).1,
              (if pFuncOnParse all_callbacks then [OnParse frame] else [])
              ++ (byteReadRun all_callbacks MiniDSP_new
                    (addressed 0xDA [0x14; 0x01])).2).
Proof.
  apply (byte_read_round_trip all_callbacks minidsp_2x4hd MiniDSP_new 64
           0xDA [0x14; 0x01]); [reflexivity | reflexivity | cbn; lia].
Defined.

Lemma no_conflict_below_49 (f : list Z) (b0 : Z) :
  f !! 0%nat = Some b0 → 4 <= b0 <= 52 → ¬ sourceConflict f.
Proof.
  intros H0 Hb (b0' & base & i & j & H0' & _ & Hi & Hj & Ha & Ha' & _).
  rewrite H0 in H0'. injection H0' as <-.
  rewrite wrap8_sub4_ge in Hi, Hj by lia.
  unfold wrap8 in Ha, Ha'. Z.div_mod_to_equations. lia.
Qed.

Lemma parseByteReadResponse_stores_witness :
  let f := padded [7; 0x05; 0xFF; 0xD9; 0x01; 0x14; 0x00] in
  let d := MiniDSP_new in
  ∃ d' ev,
    parseByteReadResponse all_callbacks d (frame_mem f) = Some (d', ev)
    ∧ (∀ i fl, 0 <= i < 7 - 4 → fieldOf (wrap8 (0xD9 + i)) = Some fl →
         getField fl d' = frame_byte f (i + 4))
    ∧ (∀ fl, (∀ i, 0 <= i < 7 - 4 → fieldOf (wrap8 (0xD9 + i)) ≠ Some fl) →
         getField fl d' = getField fl d)
    ∧ callbackAlways d' = callbackAlways d
    ∧ outputLevels d' = outputLevels d ∧ inputLevels d' = inputLevels d.
Proof.
  intros f d.
  apply (parseByteReadResponse_stores all_callbacks d f 7 0xD9);
    [reflexivity | reflexivity | reflexivity | lia |].
  apply (no_conflict_below_49 f 7); [reflexivity | lia].
Defined.

Lemma parseByteReadResponse_skips_witness :
  let f := padded [8; 0x05; 0xFF; 0xFE; 0x01; 0x02; 0x03; 0x04] in
  parseByteReadResponse all_callbacks MiniDSP_new (frame_mem f)
  = Some (MiniDSP_new, []).
Proof.
  intros f.
  apply (parseByteReadResponse_skips all_callbacks MiniDSP_new f 8 0xFE);
    [reflexivity | reflexivity | reflexivity | lia |].
  intros i Hi.
  assert (i = 0 ∨ i = 1 ∨ i = 2 ∨ i = 3) as [-> | [-> | [-> | ->]]] by lia;
    reflexivity.
Defined.

(** * Further properties of the float-read parser *)

Section FloatReadMore.

Context (cb : Callbacks).

Lemma levelCalls_are_level_calls (s : FloatLoop) :
  forallb isLevelCall (levelCalls cb s) = true.
Proof. unfold levelCalls. by repeat case_match. Qed.

(** X12.  A float-read frame with [4 <= frame[0] <= 64] never changes
    [preset], [source], [volume], [muted] or the mode, makes no call other
    than level calls, and leaves every level whose address is not among
    [base + i] (modulo 256) as it was. *)
Theorem parseFloatReadResponse_effect (d : MiniDSP) (f : list Z) (b0 base : Z) :
  length f = 64%nat → f !! 0%nat = Some b0 → f !! 3%nat = Some base →
  4 <= b0 <= 64 →
  ∃ d' ev,
    parseFloatReadResponse cb d (frame_mem f) = Some (d', ev)
    ∧ preset d' = preset d ∧ source d' = source d ∧ volume d' = volume d
    ∧ muted d' = muted d ∧ callbackAlways d' = callbackAlways d
    ∧ (∀ sl, (∀ i, 0 <= i < (b0 - 4) / 4 →
                   levelSlot (wrap8 (base + i)) ≠ Some sl) →
             getLevel sl d' = getLevel sl d)
    ∧ forallb isLevelCall ev = true.
Proof.
  intros Hlen H0 H3 Hb.
  destruct (Z.eq_dec ((b0 - 4) mod 4) 0) as [Hmod|Hmod].
  - set (s0 := {| dsp := d; newOutputLevels := false; newInputLevels := false |}).
    set (ps := floatReadSamples f base ((b0 - 4) / 4)).
    exists (dsp (floatReadRun s0 ps)), (levelCalls cb (floatReadRun s0 ps)).
    destruct (floatReadRun_scalars ps s0) as (Hp & Hs & Hv & Hm & Hc).
    split_and!; try done.
    + by apply parseFloatReadResponse_run.
    + intros sl Hnone. rewrite (floatReadRun_kept ps s0 sl); [done|].
      unfold ps, floatReadSamples. apply Forall_fmap, Forall_forall.
      intros i Hi%elem_of_seqZ. cbn. apply Hnone. lia.
    + apply levelCalls_are_level_calls.
  - exists d, []. split_and!; try done.
    apply (parseFloatReadResponse_stops cb d f b0); try done.
    by rewrite wrap8_sub4_ge by lia.
Qed.

Lemma lor_low_high (a b n : Z) :
  0 <= n → 0 <= a < 2 ^ n → Z.lor a (Z.shiftl b n) = a + b * 2 ^ n.
Proof.
  intros Hn Ha.
  assert (Hland : Z.land a (Z.shiftl b n) = 0).
  { apply Z.bits_inj'. intros i Hi. rewrite Z.land_spec, Z.bits_0.
    destruct (Z.lt_ge_cases i n) as [Hlt|Hge].
    - by rewrite (Z.shiftl_spec_low b n i), andb_false_r.
    - assert (Hbit : Z.testbit a i = false); [|by rewrite Hbit].
      destruct (Z.eq_dec a 0) as [->|Hne]; [apply Z.bits_0|].
      apply Z.bits_above_log2; [lia|].
      apply Z.log2_lt_pow2; [lia|].
      apply Z.lt_le_trans with (2 ^ n); [lia|].
      apply Z.pow_le_mono_r; lia. }
  rewrite <-Z.lxor_lor, <-Z.add_nocarry_lxor by done.
  by rewrite Z.shiftl_mul_pow2.
Qed.

Lemma frame_word_sum (f : list Z) (off : Z) :
  Forall is_byte f →
  frame_word f off
  = frame_byte f off + 256 * frame_byte f (off + 1)
    + 65536 * frame_byte f (off + 2) + 16777216 * frame_byte f (off + 3).
Proof.
  intros Hf. unfold frame_word.
  pose proof (frame_byte_is_byte f off Hf) as H0.
  pose proof (frame_byte_is_byte f (off + 1) Hf) as H1.
  pose proof (frame_byte_is_byte f (off + 2) Hf) as H2.
  pose proof (frame_byte_is_byte f (off + 3) Hf) as H3.
  unfold is_byte in *.
  set (b0 := frame_byte f off) in *. set (b1 := frame_byte f (off + 1)) in *.
  set (b2 := frame_byte f (off + 2)) in *.
  set (b3 := frame_byte f (off + 3)) in *.
  rewrite (lor_low_high (Z.shiftl b2 16) b3 24)
    by (rewrite ?Z.shiftl_mul_pow2; lia).
  replace (Z.shiftl b2 16 + b3 * 2 ^ 24) with (Z.shiftl (b2 + b3 * 2 ^ 8) 16)
    by (rewrite !Z.shiftl_mul_pow2; lia).
  rewrite (lor_low_high (Z.shiftl b1 8) (b2 + b3 * 2 ^ 8) 16)
    by (rewrite ?Z.shiftl_mul_pow2; lia).
  replace (Z.shiftl b1 8 + (b2 + b3 * 2 ^ 8) * 2 ^ 16)
    with (Z.shiftl (b1 + (b2 + b3 * 2 ^ 8) * 2 ^ 8) 8)
    by (rewrite !Z.shiftl_mul_pow2; lia).
  rewrite (lor_low_high b0 _ 8) by lia. lia.
Qed.

(** X13.  [getFloatLE] keeps the four bytes it copies: the word it returns
    is below [2^32] and its byte [k], counted from the least significant, is
    the byte at offset [off + k] of the frame (little-endian order). *)
Theorem getFloatLE_bytes (f : list Z) (off : Z) :
  Forall is_byte f → 0 <= off → off + 4 <= Z.of_nat (length f) →
  ∃ w,
    getFloatLE (frame_mem f) off = Some w
    ∧ 0 <= w < 2 ^ 32
    ∧ ∀ k, 0 <= k < 4 → (w / 2 ^ (8 * k)) mod 256 = frame_byte f (off + k).
Proof.
  intros Hf Hoff Hlen. exists (frame_word f off).
  split; [by apply getFloatLE_frame|].
  rewrite (frame_word_sum f off Hf).
  pose proof (frame_byte_is_byte f off Hf) as H0.
  pose proof (frame_byte_is_byte f (off + 1) Hf) as H1.
  pose proof (frame_byte_is_byte f (off + 2) Hf) as H2.
  pose proof (frame_byte_is_byte f (off + 3) Hf) as H3.
  unfold is_byte in *.
  set (b0 := frame_byte f off) in *. set (b1 := frame_byte f (off + 1)) in *.
  set (b2 := frame_byte f (off + 2)) in *.
  set (b3 := frame_byte f (off + 3)) in *.
  split; [lia|]. intros k Hk.
  assert (k = 0 ∨ k = 1 ∨ k = 2 ∨ k = 3) as [-> | [-> | [-> | ->]]] by lia.
  - rewrite Z.add_0_r. fold b0. change (2 ^ (8 * 0)) with 1.
    Z.div_mod_to_equations. lia.
  - fold b1. change (2 ^ (8 * 1)) with 256. Z.div_mod_to_equations. lia.
  - fold b2. change (2 ^ (8 * 2)) with 65536. Z.div_mod_to_equations. lia.
  - fold b3. change (2 ^ (8 * 3)) with 16777216. Z.div_mod_to_equations. lia.
Qed.

End FloatReadMore.

Lemma parseFloatReadResponse_effect_witness :
  let f := padded [12; 0x14; 0x00; 0x4C; 0x00; 0x00; 0x20; 0x41;
                   0x00; 0x00; 0xA0; 0xC0] in
  let d := MiniDSP_new in
  ∃ d' ev,
    parseFloatReadResponse all_callbacks d (frame_mem f) = Some (d', ev)
    ∧ preset d' = preset d ∧ source d' = source d ∧ volume d' = volume d
    ∧ muted d' = muted d ∧ callbackAlways d' = callbackAlways d
    ∧ (∀ sl, (∀ i, 0 <= i < (12 - 4) / 4 →
                   levelSlot (wrap8 (0x4C + i)) ≠ Some sl) →
             getLevel sl d' = getLevel sl d)
    ∧ forallb isLevelCall ev = true.
Proof.
  intros f d.
  apply (parseFloatReadResponse_effect all_callbacks d f 12 0x4C);
    [reflexivity | reflexivity | reflexivity | lia].
Defined.

Lemma getFloatLE_bytes_witness :
  let f := padded [8; 0x14; 0x00; 0x4A; 0x00; 0x00; 0x20; 0x41] in
  ∃ w,
    getFloatLE (frame_mem f) 4 = Some w
    ∧ 0 <= w < 2 ^ 32
    ∧ ∀ k, 0 <= k < 4 → (w / 2 ^ (8 * k)) mod 256 = frame_byte f (4 + k).
Proof.
  intros f. apply (getFloatLE_bytes f 4); [|lia|cbn; lia].
  unfold f, is_byte. repeat (constructor; [lia|]). constructor.
Defined.

(** * Two runs of [ParseHIDData] side by side *)

Section Simulation.

(** Two sets of callbacks, a relation [R] between states and a relation [E]
    between lists of calls that every step of the parsers preserves, for
    frames whose bytes satisfy [B]. *)
Context (cb1 cb2 : Callbacks).
Context (R : MiniDSP → MiniDSP → Prop) (E : list Event → list Event → Prop).
Context (B : Z → Prop).

Hypothesis E_nil : E [] [].
Hypothesis E_app : ∀ a b c d, E a b → E c d → E (a ++ c) (b ++ d).
Hypothesis E_debug : ∀ f,
  E (if pFuncOnParse cb1 then [OnParse f] else [])
    (if pFuncOnParse cb2 then [OnParse f] else []).
Hypothesis step_bytes : ∀ d1 d2 a x,
  B x → R d1 d2 →
  R (byteReadCase cb1 d1 a x).1 (byteReadCase cb2 d2 a x).1
  ∧ E (byteReadCase cb1 d1 a x).2 (byteReadCase cb2 d2 a x).2.
Hypothesis step_floats : ∀ s1 s2 a x,
  R (dsp s1) (dsp s2) →
  R (dsp (floatReadCase s1 a x)) (dsp (floatReadCase s2 a x)).
Hypothesis level_calls : ∀ s1 s2,
  R (dsp s1) (dsp s2) →
  newOutputLevels s1 = newOutputLevels s2 →
  newInputLevels s1 = newInputLevels s2 →
  E (levelCalls cb1 s1) (levelCalls cb2 s2).

Lemma load_frame_B (f : list Z) (i x : Z) :
  Forall B f → load (frame_mem f) i = Some x → B x.
Proof.
  intros Hf. unfold load. destruct (0 <=? i); [|done].
  unfold frame_mem. rewrite list_lookup_fmap.
  destruct (f !! Z.to_nat i) as [y|] eqn:Hy; [|done].
  cbn. intros [= <-]. by apply (Forall_lookup_1 _ _ _ _ Hf Hy).
Qed.

Lemma byteReadLoop_sim (f : list Z) (base : Z) (n : nat) (i : Z)
    (d1 d2 : MiniDSP) :
  Forall B f → R d1 d2 →
  outcomes_related R E
    (byteReadLoop cb1 (frame_mem f) base n i d1)
    (byteReadLoop cb2 (frame_mem f) base n i d2).
Proof.
  intros Hf. revert i d1 d2. induction n as [|n IH]; intros i d1 d2 HR.
  { by split. }
  cbn [byteReadLoop].
  destruct (load (frame_mem f) (i + 4)) as [x|] eqn:Hx; [|done].
  cbn [mbind option_bind].
  destruct (step_bytes d1 d2 (wrap8 (base + i)) x) as [HR' HE'];
    [by apply (load_frame_B f (i + 4)) | done |].
  destruct (byteReadCase cb1 d1 _ x) as [d1' e1].
  destruct (byteReadCase cb2 d2 _ x) as [d2' e2]. cbn [fst snd] in *.
  specialize (IH (i + 1) d1' d2' HR'). unfold outcomes_related in *.
  destruct (byteReadLoop cb1 _ base n (i + 1) d1') as [[d1'' e1']|],
           (byteReadLoop cb2 _ base n (i + 1) d2') as [[d2'' e2']|];
    cbn [mbind option_bind]; try done.
  destruct IH as [HR'' HE'']. split; [done | by apply E_app].
Qed.

Lemma floatReadLoop_sim (buf : list (option Z)) (base : Z) (n : nat) (i : Z)
    (s1 s2 : FloatLoop) :
  R (dsp s1) (dsp s2) →
  newOutputLevels s1 = newOutputLevels s2 →
  newInputLevels s1 = newInputLevels s2 →
  match floatReadLoop buf base n i s1, floatReadLoop buf base n i s2 with
  | Some t1, Some t2 =>
      R (dsp t1) (dsp t2) ∧ newOutputLevels t1 = newOutputLevels t2
      ∧ newInputLevels t1 = newInputLevels t2
  | None, None => True
  | _, _ => False
  end.
Proof.
  revert i s1 s2. induction n as [|n IH]; intros i s1 s2 HR Ho Hi; [done|].
  cbn [floatReadLoop].
  destruct (getFloatLE buf (4 + Z.shiftl i 2)) as [x|]; [|done].
  cbn [mbind option_bind]. apply IH.
  - by apply step_floats.
  - destruct (floatReadCase_flags s1 (wrap8 (base + i)) x) as [-> _].
    destruct (floatReadCase_flags s2 (wrap8 (base + i)) x) as [-> _].
    by rewrite Ho.
  - destruct (floatReadCase_flags s1 (wrap8 (base + i)) x) as [_ ->].
    destruct (floatReadCase_flags s2 (wrap8 (base + i)) x) as [_ ->].
    by rewrite Hi.
Qed.

Lemma parseDirectSetResponse_sim (f : list Z) (d1 d2 : MiniDSP) :
  Forall B f → R d1 d2 →
  outcomes_related R E
    (parseDirectSetResponse cb1 d1 (frame_mem f))
    (parseDirectSetResponse cb2 d2 (frame_mem f)).
Proof.
  intros Hf HR. unfold parseDirectSetResponse.
  destruct (load (frame_mem f) 2) as [x|] eqn:Hx; [|done].
  cbn [mbind option_bind].
  destruct (load (frame_mem f) 1) as [op|]; [|done].
  cbn [mbind option_bind outcomes_related].
  pose proof (load_frame_B f 2 x Hf Hx) as HB.
  destruct (op =? 0x42); [exact (step_bytes d1 d2 0xDA x HB HR)|].
  destruct (op =? 0x17); [exact (step_bytes d1 d2 0xDB x HB HR)|].
  destruct (op =? 0x34); [exact (step_bytes d1 d2 0xD9 x HB HR)|].
  by split.
Qed.

Lemma parseByteReadResponse_sim (f : list Z) (d1 d2 : MiniDSP) :
  Forall B f → R d1 d2 →
  outcomes_related R E
    (parseByteReadResponse cb1 d1 (frame_mem f))
    (parseByteReadResponse cb2 d2 (frame_mem f)).
Proof.
  intros Hf HR. unfold parseByteReadResponse.
  destruct (load (frame_mem f) 0) as [b0|]; [|done].
  cbn [mbind option_bind].
  destruct (load (frame_mem f) 3) as [base|]; [|done].
  cbn [mbind option_bind]. by apply byteReadLoop_sim.
Qed.

Lemma parseFloatReadResponse_sim (f : list Z) (d1 d2 : MiniDSP) :
  R d1 d2 →
  outcomes_related R E
    (parseFloatReadResponse cb1 d1 (frame_mem f))
    (parseFloatReadResponse cb2 d2 (frame_mem f)).
Proof.
  intros HR. unfold parseFloatReadResponse.
  destruct (load (frame_mem f) 0) as [b0|]; [|done].
  cbn [mbind option_bind].
  destruct (negb (wrap8 (b0 - 4) mod 4 =? 0)); [by split|].
  destruct (load (frame_mem f) 3) as [base|]; [|done].
  cbn [mbind option_bind].
  pose proof (floatReadLoop_sim (frame_mem f) base
                (Z.to_nat (wrap8 (b0 - 4) / 4)) 0
                {| dsp := d1; newOutputLevels := false; newInputLevels := false |}
                {| dsp := d2; newOutputLevels := false; newInputLevels := false |}
                HR eq_refl eq_refl) as Hloop.
  destruct (floatReadLoop _ base _ 0 {| dsp := d1 |}) as [t1|],
           (floatReadLoop _ base _ 0 {| dsp := d2 |}) as [t2|];
    cbn [mbind option_bind outcomes_related]; try done.
  destruct Hloop as (HR' & Ho & Hi). split; [done|].
  by apply (level_calls t1 t2).
Qed.

Lemma ParseHIDData_sim (hid : HIDUniversal) (len : Z) (buf : option (list Z))
    (d1 d2 : MiniDSP) :
  (∀ f, buf = Some f → Forall B f) → R d1 d2 →
  outcomes_related R E
    (ParseHIDData hid cb1 d1 len buf) (ParseHIDData hid cb2 d2 len buf).
Proof.
  intros Hbuf HR. unfold ParseHIDData.
  destruct (negb (VID hid =? MINIDSP_VID) || negb (PID hid =? MINIDSP_PID));
    [by split|].
  destruct buf as [f|]; [|by split].
  specialize (Hbuf f eq_refl).
  assert (Hafter : ∀ o1 o2,
    outcomes_related R E o1 o2 →
    outcomes_related R E
      (after (if pFuncOnParse cb1 then [OnParse f] else []) o1)
      (after (if pFuncOnParse cb2 then [OnParse f] else []) o2)).
  { intros [[x1 e1]|] [[x2 e2]|]; cbn; try done.
    intros [HR' HE']. split; [done|]. by apply E_app. }
  apply Hafter.
  destruct (byte_is (frame_mem f) 0 1) as [[|]|]; cbn [mbind option_bind];
    [by apply parseDirectSetResponse_sim| |done].
  destruct (and_then (byte_is (frame_mem f) 1 readByteCommand) _)
    as [[|]|]; cbn [mbind option_bind];
    [by apply parseByteReadResponse_sim| |done].
  destruct (and_then (byte_is (frame_mem f) 1 readFloatCommand) _)
    as [[|]|]; cbn [mbind option_bind];
    [by apply parseFloatReadResponse_sim| |done].
  by split.
Qed.

End Simulation.

(** * Invariants of [ParseHIDData] *)

Section Invariants.

Context (cb : Callbacks).

Lemma byteReadCase_wf (d : MiniDSP) (a x : Z) :
  is_byte x → wf_state d → wf_state (byteReadCase cb d a x).1.
Proof.
  unfold wf_state, is_byte. intros Hx Hd.
  unfold byteReadCase, updateSource, updateVolume, updateMuted.
  repeat case_match; cbn; intuition lia.
Qed.

Lemma floatReadCase_dsp (s1 s2 : FloatLoop) (a x : Z) :
  dsp s1 = dsp s2 → dsp (floatReadCase s1 a x) = dsp (floatReadCase s2 a x).
Proof.
  intros Heq. pose proof (floatReadCase_slot s1 a x) as H1.
  pose proof (floatReadCase_slot s2 a x) as H2.
  destruct (levelSlot a) as [[k|k]|]; congruence.
Qed.

Lemma floatReadCase_wf (s : FloatLoop) (a x : Z) :
  wf_state (dsp s) → wf_state (dsp (floatReadCase s a x)).
Proof.
  unfold wf_state. intros Hd.
  destruct (floatReadCase_scalars s a x) as (-> & -> & -> & -> & _).
  destruct (floatReadCase_lengths s a x) as [-> ->]. done.
Qed.

(** X14.  The parsers keep the members in range and never touch the mode:
    from a state whose [preset], [source] and [muted] are bytes, whose
    [volume] is at most [0x100] and whose level arrays have 4 and 2
    elements, any frame of bytes that [ParseHIDData] processes leads to such
    a state again, with [callbackAlways] as it was. *)
Theorem ParseHIDData_invariant (hid : HIDUniversal) (d : MiniDSP) (len : Z)
    (buf : option (list Z)) (d' : MiniDSP) (ev : list Event) :
  wf_state d → (∀ f, buf = Some f → Forall is_byte f) →
  ParseHIDData hid cb d len buf = Some (d', ev) →
  wf_state d' ∧ callbackAlways d' = callbackAlways d.
Proof.
  intros Hwf Hbuf Hparse.
  pose proof (ParseHIDData_sim cb cb
    (λ d1 d2, d1 = d2 ∧ wf_state d1 ∧ callbackAlways d1 = callbackAlways d)
    (λ _ _, True) is_byte) as Hsim.
  specialize (Hsim I (λ _ _ _ _ _ _, I) (λ _, I)).
  unfold outcomes_related in Hsim.
  specialize (Hsim) with (hid := hid) (len := len) (buf := buf)
                         (d1 := d) (d2 := d).
  rewrite Hparse in Hsim. apply Hsim; try done.
  - intros d1 d2 a x Hx (-> & Hwf2 & Hmode). split; [|done].
    split_and!; [done | by apply byteReadCase_wf |].
    by rewrite byteReadCase_mode.
  - intros s1 s2 a x (Heq & Hwf1 & Hmode).
    split_and!; [by apply floatReadCase_dsp | by apply floatReadCase_wf |].
    by destruct (floatReadCase_scalars s1 a x) as (_ & _ & _ & _ & ->).
Qed.

Lemma update_modes (d : MiniDSP) (a x : Z) :
  (byteReadCase cb (callbackOnResponse d) a x).1
  = callbackOnResponse (byteReadCase cb d a x).1
  ∧ (byteReadCase cb d a x).2
    `sublist_of` (byteReadCase cb (callbackOnResponse d) a x).2.
Proof.
  unfold byteReadCase, updateSource, updateVolume, updateMuted.
  cbn [callbackOnResponse set_callbackAlways set_source set_volume set_muted
       set_preset source volume muted callbackAlways fst snd orb].
  destruct (callbackAlways d), (pFuncOnSourceChange cb),
    (pFuncOnVolumeChange cb), (pFuncOnMutedChange cb),
    (a =? 0xD8), ((a =? 0xA9) || (a =? 0xD9)), (a =? 0xDA), (a =? 0xDB),
    (x =? source d), (x =? volume d), (x =? muted d);
    cbn [fst snd andb orb negb]; (split; [done|]);
    first [done | apply sublist_nil_l].
Qed.

(** X16.  The mode only filters calls.  For every buffer, processing it in
    on-change mode and in always-notify mode is defined in the same cases
    and leaves the same members; the calls made in on-change mode are a
    subsequence of the calls made in always-notify mode. *)
Theorem on_change_calls_sublist (hid : HIDUniversal) (d : MiniDSP) (len : Z)
    (buf : option (list Z)) :
  match ParseHIDData hid cb (callbackOnChange d) len buf,
        ParseHIDData hid cb (callbackOnResponse d) len buf with
  | Some (d1, ev1), Some (d2, ev2) =>
      d2 = callbackOnResponse d1 ∧ ev1 `sublist_of` ev2
  | None, None => True
  | _, _ => False
  end.
Proof.
  apply (ParseHIDData_sim cb cb (λ d1 d2, d2 = callbackOnResponse d1)
           (λ e1 e2, e1 `sublist_of` e2) (λ _, True)); try done.
  - intros a b c e. apply sublist_app.
  - intros x1 x2 a x _ ->. destruct (update_modes x1 a x) as [-> Hsub]. done.
  - intros s1 s2 a x Heq.
    pose proof (floatReadCase_slot s1 a x) as H1.
    pose proof (floatReadCase_slot s2 a x) as H2.
    destruct (levelSlot a) as [[k|k]|]; rewrite ?H1, ?H2, ?Heq; done.
  - intros s1 s2 Heq Ho Hi. unfold levelCalls. rewrite Heq, Ho, Hi. done.
  - intros f _. by apply Forall_true.
Qed.

End Invariants.

Lemma ParseHIDData_invariant_witness :
  let f := padded [7; 0x05; 0xFF; 0xD9; 0x01; 0x14; 0x00] in
  ∃ d' ev,
    ParseHIDData minidsp_2x4hd all_callbacks MiniDSP_new 64 (Some f)
    = Some (d', ev)
    ∧ wf_state d' ∧ callbackAlways d' = callbackAlways MiniDSP_new.
Proof.
  intros f.
  destruct (ParseHIDData minidsp_2x4hd all_callbacks MiniDSP_new 64 (Some f))
    as [[d' ev]|] eqn:Hparse; [|by vm_compute in Hparse].
  exists d', ev. split; [reflexivity|].
  apply (ParseHIDData_invariant all_callbacks minidsp_2x4hd MiniDSP_new 64
           (Some f) d' ev); [| |exact Hparse].
  - unfold wf_state, is_byte. cbn. lia.
  - intros g [= <-]. unfold f, is_byte.
    repeat (constructor; [lia|]). constructor.
Defined.

(** * Which frames [ParseHIDData] can process, and the status reply *)

Section Frames.

Context (cb : Callbacks).

Lemma after_None (dbg : list Event) (o : option (MiniDSP * list Event)) :
  after dbg o = None ↔ o = None.
Proof. by destruct o as [[? ?]|]. Qed.

Lemma wrap8_sub4_mod4 (b0 : Z) : wrap8 (b0 - 4) mod 4 = b0 mod 4.
Proof. unfold wrap8. Z.div_mod_to_equations. lia. Qed.

(** X17.  On a 64-byte frame of the device [ParseHIDData] reads outside the
    frame exactly when [frame[0]] is neither 1 nor in [4 .. 64] and the frame
    is either a byte-read response or a float-read response whose length
    byte is a multiple of 4; every other frame is processed. *)
Theorem ParseHIDData_undefined_iff (hid : HIDUniversal) (d : MiniDSP)
    (len : Z) (f : list Z) (b0 b1 b2 : Z) :
  VID hid = MINIDSP_VID → PID hid = MINIDSP_PID → length f = 64%nat →
  f !! 0%nat = Some b0 → f !! 1%nat = Some b1 → f !! 2%nat = Some b2 →
  is_byte b0 →
  ParseHIDData hid cb d len (Some f) = None
  ↔ b0 ≠ 0x01 ∧ ¬ (4 <= b0 <= 64)
    ∧ ((b1 = 0x05 ∧ b2 = 0xFF) ∨ (b1 = 0x14 ∧ b2 = 0x00 ∧ b0 mod 4 = 0)).
Proof.
  intros HV HP Hlen H0 H1 H2 Hb0.
  rewrite (ParseHIDData_frame cb hid d len f b0 b1 b2) by done.
  rewrite after_None.
  destruct (Z.eqb_spec b0 1) as [->|Hne1].
  { rewrite (parseDirectSetResponse_frame cb d f b1 b2) by done.
    split; [done | intros [? _]; done]. }
  destruct (Z.eqb_spec b1 5) as [->|Hne5]; cbn [andb].
  - destruct (Z.eqb_spec b2 255) as [->|HneFF].
    + rewrite eq_None_not_Some, (parseByteReadResponse_defined cb d f b0)
        by done.
      split; [intros Hout; split_and!; auto | intros (_ & Hout & _); done].
    + cbn. split; [done | intros (_ & _ & [[_ ?]|[? _]]); done].
  - destruct (Z.eqb_spec b1 20) as [->|Hne14]; cbn [andb].
    + destruct (Z.eqb_spec b2 0) as [->|Hne0].
      * rewrite eq_None_not_Some, (parseFloatReadResponse_defined cb d f b0)
          by done.
        rewrite wrap8_sub4_mod4. split.
        -- intros Hout. split_and!; [done | tauto |].
           right. split_and!; try done.
           destruct (Z.eq_dec (b0 mod 4) 0); [done | tauto].
        -- intros (_ & Hout & [[? _]|(_ & _ & Hmod)]); [done|]. tauto.
      * split; [done | intros (_ & _ & [[? _]|(_ & ? & _)]); done].
    + split; [done | intros (_ & _ & [[? _]|(? & _)]); done].
Qed.

(** X18.  The reply to [RequestStatus] (three bytes read from [0xD9]) sets
    the source, the volume and the mute flag to its three data bytes and
    nothing else; the accessors then return them, [getVolumeDB] as
    [-(v / 2)]; in always-notify mode the attached callbacks are called in
    the order source, volume, mute. *)
Theorem status_reply (d : MiniDSP) (s v m : Z) :
  is_byte s → is_byte v → is_byte m →
  let f := padded [7; 0x05; 0xFF; 0xD9; s; v; m] in
  ∃ d' ev,
    parseByteReadResponse cb d (frame_mem f) = Some (d', ev)
    ∧ d' = set_muted m (set_volume v (set_source s d))
    ∧ getSource d' = s ∧ getVolume d' = v
    ∧ (getVolumeDB d' == - (inject_Z v / (2 # 1)))%Q
    ∧ isMuted d' = negb (m =? 0)
    ∧ (callbackAlways d = true →
       ev = (if pFuncOnSourceChange cb then [OnSourceChange s] else [])
            ++ (if pFuncOnVolumeChange cb then [OnVolumeChange v] else [])
            ++ (if pFuncOnMutedChange cb
                then [OnMutedChange (negb (m =? 0))] else [])).
Proof.
  intros Hs Hv Hm f.
  rewrite (parseByteReadResponse_run cb d f 7 0xD9); [|done..|lia].
  change (byteReadPairs f 0xD9 (7 - 4))
    with [(0xD9, s); (0xDA, v); (0xDB, m)].
  unfold byteReadRun, byteReadCase. cbn [Z.eqb Pos.eqb orb].
  unfold updateSource, updateVolume, updateMuted.
  cbn [set_source set_volume set_muted source volume muted callbackAlways
       preset outputLevels inputLevels].
  eexists _, _. split; [reflexivity|]. split_and!; try done.
  - unfold getVolumeDB. cbn [volume]. unfold Qeq. cbn. lia.
  - intros ->. cbn [orb andb]. rewrite wrap8_byte by done.
    by rewrite app_nil_r.
Qed.

End Frames.

Lemma ParseHIDData_undefined_iff_witness :
  let f := padded [3; 0x05; 0xFF; 0xDA; 0x14] in
  ParseHIDData minidsp_2x4hd all_callbacks MiniDSP_new 64 (Some f) = None
  ↔ 3 ≠ 0x01 ∧ ¬ (4 <= 3 <= 64)
    ∧ ((0x05 = 0x05 ∧ 0xFF = 0xFF) ∨ (0x05 = 0x14 ∧ 0xFF = 0x00 ∧ 3 mod 4 = 0)).
Proof.
  intros f.
  apply (ParseHIDData_undefined_iff all_callbacks minidsp_2x4hd MiniDSP_new
           64 f 3 0x05 0xFF); try reflexivity.
  unfold is_byte. lia.
Defined.

Lemma status_reply_witness :
  let f := padded [7; 0x05; 0xFF; 0xD9; 1; 20; 0] in
  let d := MiniDSP_new in
  ∃ d' ev,
    parseByteReadResponse all_callbacks d (frame_mem f) = Some (d', ev)
    ∧ d' = set_muted 0 (set_volume 20 (set_source 1 d))
    ∧ getSource d' = 1 ∧ getVolume d' = 20
    ∧ (getVolumeDB d' == - (inject_Z 20 / (2 # 1)))%Q
    ∧ isMuted d' = negb (0 =? 0)
    ∧ (callbackAlways d = true →
       ev = (if pFuncOnSourceChange all_callbacks
             then [OnSourceChange 1] else [])
            ++ (if pFuncOnVolumeChange all_callbacks
                then [OnVolumeChange 20] else [])
            ++ (if pFuncOnMutedChange all_callbacks
                then [OnMutedChange (negb (0 =? 0))] else [])).
Proof.
  apply (status_reply all_callbacks MiniDSP_new 1 20 0);
    unfold is_byte; lia.
Defined.

(** * Level replies *)

Section LevelReplies.

Context (cb : Callbacks).

Lemma floatReadRun_all_levels (W : Z → Z) (d : MiniDSP) :
  length (outputLevels d) = 4%nat → length (inputLevels d) = 2%nat →
  let s := floatReadRun
             {| dsp := d; newOutputLevels := false; newInputLevels := false |}
             ((λ i, (wrap8 (0x44 + i), W i)) <$> seqZ 0 10) in
  outputLevels (dsp s) = [W 6; W 7; W 8; W 9]
  ∧ inputLevels (dsp s) = [W 0; W 1]
  ∧ newOutputLevels s = true ∧ newInputLevels s = true.
Proof.
  intros Ho Hi.
  destruct d as [p so v m c ol il]. cbn [outputLevels inputLevels] in Ho, Hi.
  destruct ol as [|o0 [|o1 [|o2 [|o3 [|]]]]]; try discriminate Ho.
  destruct il as [|i0 [|i1 [|]]]; try discriminate Hi.
  by vm_compute.
Qed.

(** X19.  The reply to [RequestLevels] (ten floats read from [0x44]) stores
    words 0 and 1 of the data as the two input levels and words 6 to 9 as
    the four output levels, passes over words 2 to 5, and calls the attached
    level callbacks once each, outputs first, with the new arrays. *)
Theorem levels_reply (d : MiniDSP) (f : list Z) :
  length f = 64%nat → f !! 0%nat = Some 44 → f !! 3%nat = Some 0x44 →
  length (outputLevels d) = 4%nat → length (inputLevels d) = 2%nat →
  ∃ d',
    parseFloatReadResponse cb d (frame_mem f)
    = Some (d',
            (if pFuncOnNewOutputLevels cb
             then [OnNewOutputLevels (outputLevels d')] else [])
            ++ (if pFuncOnNewInputLevels cb
                then [OnNewInputLevels (inputLevels d')] else []))
    ∧ outputLevels d'
      = [frame_word f 28; frame_word f 32; frame_word f 36; frame_word f 40]
    ∧ inputLevels d' = [frame_word f 4; frame_word f 8].
Proof.
  intros Hlen H0 H3 Ho Hi.
  rewrite (parseFloatReadResponse_run cb d f 44 0x44); [|done..|lia|done].
  change ((44 - 4) / 4) with 10.
  assert (Hsamples : floatReadSamples f 0x44 10
    = (λ i, (wrap8 (0x44 + i), frame_word f (4 + 4 * i))) <$> seqZ 0 10).
  { unfold floatReadSamples. apply list_fmap_ext.
    intros j i Hi'%lookup_seqZ. unfold floatReadSample.
    by rewrite Z.shiftl_mul_pow2, Z.mul_comm by lia. }
  rewrite Hsamples.
  destruct (floatReadRun_all_levels (λ i, frame_word f (4 + 4 * i)) d Ho Hi)
    as (Hout & Hin & Hno & Hni).
  eexists. split; [|split; [exact Hout | exact Hin]].
  unfold levelCalls. by rewrite Hno, Hni, !andb_true_r.
Qed.

Lemma frame_word_encoded (op hi base : Z) (data : list Z) (i : Z) :
  0 <= i → 4 * i + 4 <= Z.of_nat (length data) →
  frame_word (encoded ([op; hi; base] ++ data)) (4 + Z.shiftl i 2)
  = frame_word data (4 * i).
Proof.
  intros Hi Hlen. rewrite Z.shiftl_mul_pow2 by lia.
  assert (Hbyte : ∀ j, 0 <= j < 4 →
    frame_byte (encoded ([op; hi; base] ++ data)) (4 + i * 2 ^ 2 + j)
    = frame_byte data (4 * i + j)).
  { intros j Hj.
    destruct (lookup_lt_is_Some_2 data (Z.to_nat (4 * i + j))) as [x Hx];
      [lia|].
    replace (4 + i * 2 ^ 2 + j)
      with (Z.of_nat (3 + Z.to_nat (4 * i + j)) + 1) by lia.
    rewrite (frame_byte_encoded _ _ x) by done.
    unfold frame_byte. by rewrite Hx. }
  unfold frame_word.
  rewrite <-(Hbyte 1), <-(Hbyte 2), <-(Hbyte 3) by lia.
  pose proof (Hbyte 0) as H0. rewrite !Z.add_0_r in H0. by rewrite H0 by lia.
Qed.

(** X20.  Encoding and decoding agree on the layout of floats.  The frame
    [SendCommand] builds for the command [14 00 base data...], with [4 * k]
    data bytes ([k <= 14]), is classified as a float-read response, and
    parsing it applies the table to the little-endian word of bytes
    [4 * i .. 4 * i + 3] of the data at address [base + i] (modulo 256), for
    every [i < k] in order. *)
Theorem float_read_round_trip (hid : HIDUniversal) (d : MiniDSP) (len : Z)
    (base k : Z) (data : list Z) :
  VID hid = MINIDSP_VID → PID hid = MINIDSP_PID →
  0 <= k <= 14 → Z.of_nat (length data) = 4 * k →
  let s := floatReadRun
             {| dsp := d; newOutputLevels := false; newInputLevels := false |}
             ((λ i, (wrap8 (base + i), frame_word data (4 * i)))
                <$> seqZ 0 k) in
  ∃ frame,
    SendCommand ([0x14; 0x00; base] ++ data) (Z.of_nat (3 + length data))
    = Some [frame]
    ∧ ParseHIDData hid cb d len (Some frame)
      = Some (dsp s,
              (if pFuncOnParse cb then [OnParse frame] else [])
              ++ levelCalls cb s).
Proof.
  intros HV HP Hk Hlen s. set (cmd := [0x14; 0x00; base] ++ data).
  exists (encoded cmd). split.
  { apply (SendCommand_encoded cmd). cbn [cmd app length]. lia. }
  assert (Hflen : length (encoded cmd) = 64%nat).
  { unfold encoded. rewrite length_app, !length_cons, length_replicate.
    cbn [cmd app length]. lia. }
  rewrite (ParseHIDData_frame cb hid d len (encoded cmd)
             (4 * k + 4) 0x14 0x00); try done.
  2:{ unfold encoded. cbn [cmd app length lookup list_lookup]. f_equal. lia. }
  destruct (Z.eqb_spec (4 * k + 4) 1) as [?|_]; [lia|].
  cbn [Z.eqb Pos.eqb andb].
  rewrite (parseFloatReadResponse_run cb d (encoded cmd) (4 * k + 4) base);
    try done; try lia.
  2:{ unfold encoded. cbn [cmd app length lookup list_lookup]. f_equal. lia. }
  2:{ replace (4 * k + 4 - 4) with (k * 4) by lia. apply Z.mod_mul. lia. }
  replace ((4 * k + 4 - 4) / 4) with k
    by (replace (4 * k + 4 - 4) with (k * 4) by lia;
        by rewrite Z.div_mul by lia).
  assert (Hsamples : floatReadSamples (encoded cmd) base k
    = (λ i, (wrap8 (base + i), frame_word data (4 * i))) <$> seqZ 0 k).
  { unfold floatReadSamples. apply list_fmap_ext.
    intros j i Hi%lookup_seqZ. unfold floatReadSample, cmd.
    by rewrite frame_word_encoded by lia. }
  rewrite Hsamples. done.
Qed.

End LevelReplies.

Lemma levels_reply_witness :
  let f := [44; 0x14; 0x00; 0x44] ++ replicate 40 0x00 ++ replicate 20 0xFF in
  ∃ d',
    parseFloatReadResponse all_callbacks MiniDSP_new (frame_mem f)
    = Some (d',
            (if pFuncOnNewOutputLevels all_callbacks
             then [OnNewOutputLevels (outputLevels d')] else [])
            ++ (if pFuncOnNewInputLevels all_callbacks
                then [OnNewInputLevels (inputLevels d')] else []))
    ∧ outputLevels d'
      = [frame_word f 28; frame_word f 32; frame_word f 36; frame_word f 40]
    ∧ inputLevels d' = [frame_word f 4; frame_word f 8].
Proof.
  intros f.
  apply (levels_reply all_callbacks MiniDSP_new f); reflexivity.
Defined.

Lemma float_read_round_trip_witness :
  let data := [0x00; 0x00; 0x20; 0x41] in
  let s := floatReadRun
             {| dsp := MiniDSP_new; newOutputLevels := false;
                newInputLevels := false |}
             ((λ i, (wrap8 (0x4A + i), frame_word data (4 * i)))
                <$> seqZ 0 1) in
  ∃ frame,
    SendCommand ([0x14; 0x00; 0x4A] ++ data) (Z.of_nat (3 + length data))
    = Some [frame]
    ∧ ParseHIDData minidsp_2x4hd all_callbacks MiniDSP_new 64 (Some frame)
      = Some (dsp s,
              (if pFuncOnParse all_callbacks then [OnParse frame] else [])
              ++ levelCalls all_callbacks s).
Proof.
  intros data.
  apply (float_read_round_trip all_callbacks minidsp_2x4hd MiniDSP_new 64
           0x4A 1 data); [reflexivity | reflexivity | lia | reflexivity].
Defined.
